(** * A shallow embedding of the generic connection pool (package [pool])

    The pool keeps a registry of live connections, hands them out
    round-robin ([Next]) or exclusively ([ExNext] / [Return]), reconciles the
    registry against a target size ([probe]) and drains it on [Close].

    The embedding is sequential: every operation runs to completion before
    the next one starts, so the mutexes [mu] and [prober] have no field in
    the model, and the ticker that [connect] starts appears as the calls of
    [probe] in a history.  Effects on the outside world (the connect
    factory, the connections' own close operation, the logger and the metric
    instruments) are recorded in a [World] that is threaded through every
    operation together with the pool.  An operation returns, panics (an
    index or a slice bound out of range, a call of a nil function) or blocks
    (a send on the full channel).

    Machine integers are [Z] with the wrap-around written out: the cursor is
    a [uint64], and [int] has 64 bits, as on amd64 and arm64. *)

From Stdlib Require Import ZArith String List Bool Lia Permutation.
Import ListNotations.
Open Scope Z_scope.

(** ** Errors (errors.go) *)

Inductive error : Type :=
| ErrNoConnectFunc
| ErrNoHealthyFunc
| ErrInvalidConnectionCount
| ErrInvalidProbeInterval
| ErrExternal (msg : string).   (* an error produced by a collaborator *)

(** ** The connection interface *)

Class Connection (T : Type) : Type := {
  conn_Close : T -> option error   (* [Close() error]; [None] is [nil] *)
}.

(** ** Loggers (logger.go) *)

Inductive Logger : Type :=
| stdOutLogger
| nullLogger
| userLogger (name : string).

Definition DefaultLogger : Logger := stdOutLogger.
Definition NullLogger : Logger := nullLogger.

(** ** Configuration *)

Module PoolMetrics.
(** Each field says whether the instrument is present (non-nil). *)
Record t : Type := mk {
  Connections : bool;
  ConnectionErrors : bool;
  Retrievals : bool
}.
End PoolMetrics.

Module PoolOptions.
Record t (T : Type) : Type := mk {
  (* the factory; [f k] is what its k-th invocation (from 0) returns *)
  Connect : option (nat -> T + error);
  Healthy : option (T -> bool);
  Connections : Z;
  ProbeInterval : Z;
  Logger : option Logger;
  Metrics : option PoolMetrics.t
}.
Arguments mk {T}.
Arguments Connect {T}.
Arguments Healthy {T}.
Arguments Connections {T}.
Arguments ProbeInterval {T}.
Arguments Logger {T}.
Arguments Metrics {T}.
End PoolOptions.

Definition validate {T} (p : PoolOptions.t T) : option error :=
  match PoolOptions.Connect p with
  | None => Some ErrNoConnectFunc
  | Some _ =>
      if PoolOptions.Connections p <? 1 then Some ErrInvalidConnectionCount
      else if PoolOptions.ProbeInterval p <=? 0 then Some ErrInvalidProbeInterval
      else None
  end.

(** ** Machine integers *)

Definition uint64_mod : Z := 2 ^ 64.
Definition int_min : Z := - 2 ^ 63.
Definition int_max : Z := 2 ^ 63 - 1.

(** [int(n)] for a [uint64] [n] on a platform whose [int] has 64 bits. *)
Definition int_of_uint64 (n : Z) : Z :=
  if n <=? int_max then n else n - uint64_mod.

(** Go's [%] truncates towards zero: the result has the sign of the dividend. *)
Definition go_rem (a b : Z) : Z := Z.rem a b.

(** The registry positions visited by [n] consecutive retrievals that start
    from cursor value [cursor] on a registry of [len] entries, while the
    cursor stays within the non-negative [int] range. *)
Definition positions (cursor len : Z) (n : nat) : list Z :=
  map (fun k => (cursor + 1 + Z.of_nat k) mod len) (seq 0 n).

(** ** Observable effects *)

Inductive Event (T : Type) : Type :=
| EvDebugf (lg : Logger) (format : string)
| EvErrorf (lg : Logger) (format : string)
| EvConnect (k : nat)          (* an invocation of the connect factory *)
| EvClose (c : T)              (* [c.Close()] *)
| EvGaugeSet (size : Z)        (* [Metrics.Connections.Set] *)
| EvConnectionErrorsInc        (* [Metrics.ConnectionErrors.Inc] *)
| EvRetrievalsInc.             (* [Metrics.Retrievals.Inc] *)
Arguments EvDebugf {T}.
Arguments EvErrorf {T}.
Arguments EvConnect {T}.
Arguments EvClose {T}.
Arguments EvGaugeSet {T}.
Arguments EvConnectionErrorsInc {T}.
Arguments EvRetrievalsInc {T}.

Record World (T : Type) : Type := mkWorld {
  connect_calls : nat;          (* invocations of the factory so far *)
  trace : list (Event T)        (* oldest event first *)
}.
Arguments mkWorld {T}.
Arguments connect_calls {T}.
Arguments trace {T}.

(** ** The pool *)

Record Pool (T : Type) : Type := mkPool {
  opts : PoolOptions.t T;
  log : Logger;
  pool : list T;
  closer : bool;    (* the [sync.Once]: has its function already run *)
  closed : bool;    (* the channel of capacity 1: does it hold the signal *)
  next : Z          (* uint64 *)
}.
Arguments mkPool {T}.
Arguments opts {T}.
Arguments log {T}.
Arguments pool {T}.
Arguments closer {T}.
Arguments closed {T}.
Arguments next {T}.

Definition set_pool {T} (l : list T) (p : Pool T) : Pool T :=
  mkPool (opts p) (log p) l (closer p) (closed p) (next p).
Definition set_closer {T} (b : bool) (p : Pool T) : Pool T :=
  mkPool (opts p) (log p) (pool p) b (closed p) (next p).
Definition set_closed {T} (b : bool) (p : Pool T) : Pool T :=
  mkPool (opts p) (log p) (pool p) (closer p) b (next p).
Definition set_next {T} (n : Z) (p : Pool T) : Pool T :=
  mkPool (opts p) (log p) (pool p) (closer p) (closed p) n.

Definition emit {T} (e : Event T) (w : World T) : World T :=
  mkWorld (connect_calls w) (trace w ++ [e]).

Definition emits {T} (evs : list (Event T)) (w : World T) : World T :=
  mkWorld (connect_calls w) (trace w ++ evs).

(** ** A state monad with panics and blocking *)

Inductive Outcome (S A : Type) : Type :=
| Returned (a : A) (s : S)
| Panicked (s : S)      (* a run-time panic; [s] is the state it left *)
| Blocked (s : S).      (* the operation waits forever *)
Arguments Returned {S A}.
Arguments Panicked {S A}.
Arguments Blocked {S A}.

Definition M (S A : Type) : Type := S -> Outcome S A.

Definition ret {S A} (a : A) : M S A := fun s => Returned a s.

Definition bind {S A B} (m : M S A) (f : A -> M S B) : M S B :=
  fun s =>
    match m s with
    | Returned a s' => f a s'
    | Panicked s' => Panicked s'
    | Blocked s' => Blocked s'
    end.

Declare Scope pool_scope.
Delimit Scope pool_scope with pool.
Notation "x <- m ;; k" := (bind m (fun x => k))
  (at level 61, m at next level, right associativity) : pool_scope.
Notation "m ;;; k" := (bind m (fun _ => k))
  (at level 61, right associativity) : pool_scope.
Open Scope pool_scope.

Section PoolModel.

Context {T : Type} `{Connection T}.
(** [var empty T]: the zero value of the connection type. *)
Variable empty : T.

Definition St : Type := (Pool T * World T)%type.
Definition Op (A : Type) : Type := M St A.

Definition get_pool : Op (Pool T) := fun s => Returned (fst s) s.
Definition mod_pool (f : Pool T -> Pool T) : Op unit :=
  fun s => Returned tt (f (fst s), snd s).
Definition mod_world (f : World T -> World T) : Op unit :=
  fun s => Returned tt (fst s, f (snd s)).
Definition panic {A} : Op A := fun s => Panicked s.
Definition block {A} : Op A := fun s => Blocked s.

(** [l[i]] with Go's bounds check. *)
Definition elem_at (l : list T) (i : Z) : Op T :=
  if (0 <=? i) && (i <? Z.of_nat (length l)) then
    match nth_error l (Z.to_nat i) with
    | Some c => ret c
    | None => panic
    end
  else panic.

Definition Debugf (format : string) : Op unit :=
  p <- get_pool ;; mod_world (emit (EvDebugf (log p) format)).
Definition Errorf (format : string) : Op unit :=
  p <- get_pool ;; mod_world (emit (EvErrorf (log p) format)).

(** [c.Close()] on a connection, recorded in the world. *)
Definition close_conn (c : T) : Op (option error) :=
  mod_world (emit (EvClose c)) ;;; ret (conn_Close c).

Definition Size : Op Z :=
  p <- get_pool ;; ret (Z.of_nat (length (pool p))).

Definition reportSize (size : Z) : Op unit :=
  p <- get_pool ;;
  match PoolOptions.Metrics (opts p) with
  | Some m =>
      if PoolMetrics.Connections m then mod_world (emit (EvGaugeSet size))
      else ret tt
  | None => ret tt
  end.

Definition reportError : Op unit :=
  p <- get_pool ;;
  match PoolOptions.Metrics (opts p) with
  | Some m =>
      if PoolMetrics.ConnectionErrors m
      then mod_world (emit EvConnectionErrorsInc)
      else ret tt
  | None => ret tt
  end.

Definition reportRetrieval : Op unit :=
  p <- get_pool ;;
  match PoolOptions.Metrics (opts p) with
  | Some m =>
      if PoolMetrics.Retrievals m then mod_world (emit EvRetrievalsInc)
      else ret tt
  | None => ret tt
  end.

(** [p.pool = append(p.pool[:index], p.pool[index+1:]...)]; both slice
    expressions are bounds-checked. *)
Definition removeFromPool (i : Z) : Op unit :=
  p <- get_pool ;;
  if (0 <=? i) && (i <? Z.of_nat (length (pool p))) then
    mod_pool (set_pool (firstn (Z.to_nat i) (pool p)
                          ++ skipn (Z.to_nat (i + 1)) (pool p)))
  else panic.

(** [atomic.AddUint64(&p.next, 1)]: wraps at 2^64, returns the new value. *)
Definition AddUint64_next (delta : Z) : Op Z :=
  p <- get_pool ;;
  let n := (next p + delta) mod uint64_mod in
  mod_pool (set_next n) ;;; ret n.

Definition Next : Op (T * bool) :=
  len <- Size ;;
  if len =? 0 then ret (empty, false)
  else
    n <- AddUint64_next 1 ;;
    reportRetrieval ;;;
    p <- get_pool ;;
    c <- elem_at (pool p) (go_rem (int_of_uint64 n) len) ;;
    ret (c, true).

Definition ExNext : Op (T * bool) :=
  len <- Size ;;
  len' <- Size ;;
  if len' =? 0 then ret (empty, false)
  else
    n <- AddUint64_next 1 ;;
    let i := go_rem (int_of_uint64 n) len in
    p <- get_pool ;;
    conn <- elem_at (pool p) i ;;
    reportRetrieval ;;;
    removeFromPool i ;;;
    ret (conn, true).

Definition Return (c : T) : Op unit :=
  mod_pool (fun p => set_pool (pool p ++ [c]) p).

(** The body of the loop of [Close], run [n] times. *)
Fixpoint close_loop (n : nat) : Op unit :=
  match n with
  | O => ret tt
  | S n' =>
      p <- get_pool ;;
      c <- elem_at (pool p) 0 ;;
      err <- close_conn c ;;
      match err with
      | Some _ => Errorf "failed to close connection: %v"
      | None => ret tt
      end ;;;
      removeFromPool 0 ;;;
      close_loop n'
  end.

(** [p.closed <- struct{}{}] on a channel of capacity 1. *)
Definition send_closed : Op unit :=
  p <- get_pool ;;
  if closed p then block else mod_pool (set_closed true).

Definition Close : Op unit :=
  p <- get_pool ;;
  if closer p then ret tt
  else
    mod_pool (set_closer true) ;;;
    Debugf "closing connection pool" ;;;
    send_closed ;;;
    len <- Size ;;
    close_loop (Z.to_nat len).

(** The health loop of [probe]: [n] iterations left, loop variable [i]. *)
Fixpoint health_loop (healthy : T -> bool) (n : nat) (i removed : Z)
  : Op unit :=
  match n with
  | O => ret tt
  | S n' =>
      p <- get_pool ;;
      c <- elem_at (pool p) (i - removed) ;;
      if negb (healthy c) then
        p' <- get_pool ;;
        c' <- elem_at (pool p') (i - removed) ;;
        err <- close_conn c' ;;
        match err with
        | Some _ => Errorf "failed to close connection: %v"
        | None => ret tt
        end ;;;
        Errorf "removing unhealthy connection from pool" ;;;
        reportError ;;;
        removeFromPool (i - removed) ;;;
        health_loop healthy n' (i + 1) (removed + 1)
      else health_loop healthy n' (i + 1) removed
  end.

(** One invocation of [p.opts.Connect()]. *)
Definition call_Connect : Op (T + error) :=
  p <- get_pool ;;
  match PoolOptions.Connect (opts p) with
  | None => panic          (* calling a nil func *)
  | Some f =>
      fun s =>
        let w := snd s in
        let k := connect_calls w in
        Returned (f k)
                 (fst s, mkWorld (S k) (trace w ++ [EvConnect k]))
  end.

(** The replenishment loop of [probe], [n] iterations. *)
Fixpoint connect_loop (n : nat) : Op unit :=
  match n with
  | O => ret tt
  | S n' =>
      r <- call_Connect ;;
      match r with
      | inr _ =>
          Errorf "failed to create connection: %v" ;;;
          reportError ;;;
          connect_loop n'
      | inl conn =>
          Return conn ;;;
          connect_loop n'
      end
  end.

(** [select { case <-p.Closed(): ...; default: ... }]: the receive takes
    the signal out of the channel when one is queued. *)
Definition recv_closed : Op bool :=
  p <- get_pool ;;
  if closed p then mod_pool (set_closed false) ;;; ret true
  else ret false.

Definition probe : Op unit :=
  Debugf "probing connection pool" ;;;
  fired <- recv_closed ;;
  if fired then ret tt
  else
    len <- Size ;;
    reportSize len ;;;
    p <- get_pool ;;
    if len =? PoolOptions.Connections (opts p) then ret tt
    else
      match PoolOptions.Healthy (opts p) with
      | Some healthy => health_loop healthy (Z.to_nat len) 0 0
      | None => ret tt
      end ;;;
      let diff := PoolOptions.Connections (opts p) - len in
      connect_loop (Z.to_nat diff).

(** [connect]: the eager pass.  The ticker goroutine it starts afterwards
    only schedules later calls of [probe]. *)
Definition connect : Op unit :=
  Debugf "creating connection pool with %d connections" ;;;
  probe.

Definition new_pool (o : PoolOptions.t T) : Pool T :=
  mkPool o
         (match PoolOptions.Logger o with
          | Some l => l
          | None => DefaultLogger
          end)
         [] false false 0.

(** [New]: either a configuration error and no pool ([inl]), or the
    outcome of the eager pass on the fresh pool ([inr]). *)
Definition New (o : PoolOptions.t T) (w : World T)
  : (error * World T) + Outcome St unit :=
  match validate o with
  | Some err => inl (err, w)
  | None => inr (connect (new_pool o, w))
  end.

(** The cursor after [atomic.AddUint64(&p.next, 1)], and the registry
    index [int(n) % len] that [Next] and [ExNext] compute from it. *)
Definition bumped (p : Pool T) : Z := (next p + 1) mod uint64_mod.

Definition next_index (p : Pool T) : Z :=
  go_rem (int_of_uint64 (bumped p)) (Z.of_nat (length (pool p))).

(** ** Drivers: repeated calls by one caller *)

(** [n] calls of [Next]; the connections returned, in order. *)
Fixpoint Next_many (n : nat) : Op (list T) :=
  match n with
  | O => ret []
  | S n' =>
      r <- Next ;;
      rest <- Next_many n' ;;
      ret (if snd r then fst r :: rest else rest)
  end.

(** [n] calls of [ExNext] with no [Return] in between; the connections
    handed out, in order. *)
Fixpoint ExNext_many (n : nat) : Op (list T) :=
  match n with
  | O => ret []
  | S n' =>
      r <- ExNext ;;
      rest <- ExNext_many n' ;;
      ret (if snd r then fst r :: rest else rest)
  end.

(** [n] calls of [Close]. *)
Fixpoint Close_many (n : nat) : Op unit :=
  match n with
  | O => ret tt
  | S n' => Close ;;; Close_many n'
  end.

(** ** What the loops leave behind, in closed form *)

Definition errors_metric (o : PoolOptions.t T) : list (Event T) :=
  match PoolOptions.Metrics o with
  | Some m =>
      if PoolMetrics.ConnectionErrors m then [EvConnectionErrorsInc] else []
  | None => []
  end.

Definition gauge_metric (o : PoolOptions.t T) (size : Z) : list (Event T) :=
  match PoolOptions.Metrics o with
  | Some m => if PoolMetrics.Connections m then [EvGaugeSet size] else []
  | None => []
  end.

Definition retrieval_metric (o : PoolOptions.t T) : list (Event T) :=
  match PoolOptions.Metrics o with
  | Some m => if PoolMetrics.Retrievals m then [EvRetrievalsInc] else []
  | None => []
  end.

Definition close_events (lg : Logger) (c : T) : list (Event T) :=
  EvClose c ::
  match conn_Close c with
  | Some _ => [EvErrorf lg "failed to close connection: %v"]
  | None => []
  end.

Definition evict_events (lg : Logger) (o : PoolOptions.t T) (c : T)
  : list (Event T) :=
  close_events lg c
    ++ [EvErrorf lg "removing unhealthy connection from pool"]
    ++ errors_metric o.

Definition unhealthy (healthy : T -> bool) (c : T) : bool :=
  negb (healthy c).

(** The connections produced by invocations [k], ..., [k + n - 1]. *)
Fixpoint connect_results (f : nat -> T + error) (k n : nat) : list T :=
  match n with
  | O => []
  | S n' =>
      match f k with
      | inl c => c :: connect_results f (S k) n'
      | inr _ => connect_results f (S k) n'
      end
  end.

Fixpoint connect_events (lg : Logger) (o : PoolOptions.t T)
         (f : nat -> T + error) (k n : nat) : list (Event T) :=
  match n with
  | O => []
  | S n' =>
      (EvConnect k ::
       match f k with
       | inl _ => []
       | inr _ =>
           EvErrorf lg "failed to create connection: %v" :: errors_metric o
       end) ++ connect_events lg o f (S k) n'
  end.

(** The registry entries a pass keeps, and those it evicts. *)
Definition survivors (o : PoolOptions.t T) (l : list T) : list T :=
  match PoolOptions.Healthy o with
  | Some healthy => filter healthy l
  | None => l
  end.

Definition evicted (o : PoolOptions.t T) (l : list T) : list T :=
  match PoolOptions.Healthy o with
  | Some healthy => filter (unhealthy healthy) l
  | None => []
  end.

(** How often a pass that starts with registry [l] calls the factory:
    [diff := p.opts.Connections - len], with [len] read before the health
    loop. *)
Definition replenish_count (o : PoolOptions.t T) (l : list T) : nat :=
  Z.to_nat (PoolOptions.Connections o - Z.of_nat (length l)).

(** The events of a pass that does not return early. *)
Definition pass_events (lg : Logger) (o : PoolOptions.t T)
           (f : nat -> T + error) (l : list T) (k : nat)
  : list (Event T) :=
  [EvDebugf lg "probing connection pool"]
    ++ gauge_metric o (Z.of_nat (length l))
    ++ flat_map (evict_events lg o) (evicted o l)
    ++ connect_events lg o f k (replenish_count o l).

(** ** Reading the trace *)

Definition closes_of (tr : list (Event T)) : list T :=
  flat_map (fun e => match e with EvClose c => [c] | _ => [] end) tr.

Definition is_retrieval (e : Event T) : bool :=
  match e with EvRetrievalsInc => true | _ => false end.
Definition is_connect (e : Event T) : bool :=
  match e with EvConnect _ => true | _ => false end.

Definition count (f : Event T -> bool) (tr : list (Event T)) : nat :=
  length (filter f tr).

(** The value of the retrievals counter: how often it was incremented. *)
Definition retrievals (w : World T) : nat := count is_retrieval (trace w).

(** ** Histories of one caller that keeps the contract of [Return]

    [reach quiet o held s]: [s] is a state of a pool constructed from [o]
    after some calls, and [held] are the connections obtained from
    [ExNext] and not yet given back.  [Return] is only ever called on a
    held connection, which is then no longer held.  With [quiet = true] a
    reconciliation pass runs only while nothing is held. *)
Inductive reach (quiet : bool) (o : PoolOptions.t T)
  : list T -> St -> Prop :=
| reach_New w s :
    New o w = inr (Returned tt s) -> reach quiet o [] s
| reach_Next held s r s' :
    reach quiet o held s -> Next s = Returned r s' ->
    reach quiet o held s'
| reach_ExNext held s c s' :
    reach quiet o held s -> ExNext s = Returned (c, true) s' ->
    reach quiet o (c :: held) s'
| reach_ExNext_absent held s c s' :
    reach quiet o held s -> ExNext s = Returned (c, false) s' ->
    reach quiet o held s'
| reach_Return h1 c h2 s s' :
    reach quiet o (h1 ++ c :: h2) s -> Return c s = Returned tt s' ->
    reach quiet o (h1 ++ h2) s'
| reach_probe held s s' :
    reach quiet o held s -> (quiet = true -> held = []) ->
    probe s = Returned tt s' ->
    reach quiet o held s'
| reach_Close held s s' :
    reach quiet o held s -> Close s = Returned tt s' ->
    reach quiet o held s'.

(** ** More readers of the trace *)

Definition is_error_inc (e : Event T) : bool :=
  match e with EvConnectionErrorsInc => true | _ => false end.

Definition is_connect_failure (e : Event T) : bool :=
  match e with
  | EvErrorf _ format => String.eqb format "failed to create connection: %v"
  | _ => false
  end.

(** The values the connections gauge was set to, in order. *)
Definition gauge_sets (tr : list (Event T)) : list Z :=
  flat_map (fun e => match e with EvGaugeSet z => [z] | _ => [] end) tr.

(** How many of the invocations [k], ..., [k + n - 1] fail. *)
Fixpoint connect_failures (f : nat -> T + error) (k n : nat) : nat :=
  match n with
  | O => O
  | S n' =>
      match f k with
      | inl _ => connect_failures f (S k) n'
      | inr _ => S (connect_failures f (S k) n')
      end
  end.

(** Does the health check of the configuration, if any, accept [c]. *)
Definition passes_health (o : PoolOptions.t T) (c : T) : bool :=
  match PoolOptions.Healthy o with
  | Some healthy => healthy c
  | None => true
  end.

End PoolModel.

Arguments St T : clear implicits.

(** ** The methods of the two loggers (logger.go)

    What a call hands to [log.Printf]: the format string, after
    [fmt.Sprintf] has put the severity in front of it.  The arguments are
    passed on unchanged and are not modelled. *)

Definition stdOutLogger_Debugf (format : string) : list string :=
  [String.append "[DEBUG] - " format].

Definition stdOutLogger_Errorf (format : string) : list string :=
  [String.append "[ERROR] - " format].

Definition nullLogger_Debugf (format : string) : list string := [].

Definition nullLogger_Errorf (format : string) : list string := [].

(** Dispatch on the logger; a logger of the caller's own does not go
    through the methods of this package. *)
Definition Logger_Debugf (lg : Logger) (format : string) : list string :=
  match lg with
  | stdOutLogger => stdOutLogger_Debugf format
  | nullLogger => nullLogger_Debugf format
  | userLogger _ => []
  end.

Definition Logger_Errorf (lg : Logger) (format : string) : list string :=
  match lg with
  | stdOutLogger => stdOutLogger_Errorf format
  | nullLogger => nullLogger_Errorf format
  | userLogger _ => []
  end.

(** Everything the package's loggers hand to [log.Printf] over a trace. *)
Definition Printf_formats {T} (tr : list (Event T)) : list string :=
  flat_map (fun e =>
              match e with
              | EvDebugf lg format => Logger_Debugf lg format
              | EvErrorf lg format => Logger_Errorf lg format
              | _ => []
              end) tr.

(** * Concrete pools

    The connection type of the test suite: a connection that can be made to
    fail its health check and whose close operation succeeds.  [conn_id]
    tells the connections apart, as their addresses do in the source. *)

Record dummyConn : Type := newDummy {
  conn_id : nat;
  failing : bool
}.

#[export] Instance dummyConn_Connection : Connection dummyConn :=
  {| conn_Close := fun _ => None |}.

Definition dummy_Healthy (d : dummyConn) : bool := negb (failing d).

(** The zero value handed back when the registry is empty. *)
Definition nil_conn : dummyConn := newDummy 0 false.

Definition world0 : World dummyConn := mkWorld 0 [].

Definition all_metrics : PoolMetrics.t := PoolMetrics.mk true true true.

(** A factory that always succeeds; its first connection fails its health
    check. *)
Definition first_failing (k : nat) : dummyConn + error :=
  inl (newDummy k (Nat.eqb k 0)).

(** The same factory, except that its third invocation fails. *)
Definition third_call_fails (k : nat) : dummyConn + error :=
  if Nat.eqb k 2 then inr (ErrExternal "dial failed") else first_failing k.

(** A factory that always succeeds with a healthy connection. *)
Definition always_healthy (k : nat) : dummyConn + error :=
  inl (newDummy k false).

(** A factory that never succeeds. *)
Definition always_fails (k : nat) : dummyConn + error :=
  inr (ErrExternal "dial failed").

Definition opts_of (f : nat -> dummyConn + error) (n : Z)
  : PoolOptions.t dummyConn :=
  PoolOptions.mk (Some f) (Some dummy_Healthy) n 1 None (Some all_metrics).

(** The pool that [New] returns for target count 3 and [first_failing]. *)
Definition pool_fresh3 : Pool dummyConn :=
  mkPool (opts_of first_failing 3) DefaultLogger
         [newDummy 0 true; newDummy 1 false; newDummy 2 false]
         false false 0.

(** The same pool once [Next] has been called [int_max] times: the cursor is
    the largest [int]. *)
Definition pool_late_cursor : Pool dummyConn := set_next int_max pool_fresh3.

(** Target count 3, two connections in the registry, the first of them
    unhealthy: what [New] returns when the third call of the factory
    fails. *)
Definition pool_short : Pool dummyConn :=
  mkPool (opts_of third_call_fails 3) DefaultLogger
         [newDummy 0 true; newDummy 1 false]
         false false 0.

(** Target count 2 and a full registry whose first connection is
    unhealthy. *)
Definition pool_full_unhealthy : Pool dummyConn :=
  mkPool (opts_of first_failing 2) DefaultLogger
         [newDummy 0 true; newDummy 1 false]
         false false 0.

(** Target count 3, one healthy connection in the registry, and a factory
    that only makes healthy connections. *)
Definition pool_one_of_three : Pool dummyConn :=
  mkPool (opts_of always_healthy 3) DefaultLogger
         [newDummy 7 false] false false 0.

(** Target count 2 and three healthy connections in the registry. *)
Definition pool_over_full : Pool dummyConn :=
  mkPool (opts_of always_healthy 2) DefaultLogger
         [newDummy 0 false; newDummy 2 false; newDummy 1 false]
         false false 1.

(** A configuration without health predicate and with the silent logger, and
    a pool built from it. *)
Definition opts_silent : PoolOptions.t dummyConn :=
  PoolOptions.mk (Some third_call_fails) None 3 1 (Some NullLogger)
                 (Some all_metrics).

Definition pool_silent : Pool dummyConn :=
  mkPool opts_silent NullLogger [newDummy 0 true] false false 0.

(** A single connection and the cursor far beyond the largest [int]. *)
Definition pool_single_late : Pool dummyConn :=
  mkPool (opts_of always_healthy 1) DefaultLogger
         [newDummy 0 false] false false (int_max + 5).

(** * Facts *)

Lemma emits_nil {T} (w : World T) : emits [] w = w.
Proof. destruct w; unfold emits; cbn. now rewrite app_nil_r. Qed.

Lemma emits_emits {T} (a b : list (Event T)) w :
  emits b (emits a w) = emits (a ++ b) w.
Proof. unfold emits; cbn. now rewrite app_assoc. Qed.

Lemma emit_emits {T} (e : Event T) w : emit e w = emits [e] w.
Proof. reflexivity. Qed.

Lemma bind_Returned {S A B} (m : M S A) (f : A -> M S B) s a s' :
  m s = Returned a s' -> bind m f s = f a s'.
Proof. unfold bind. now intros ->. Qed.

Lemma bind_Panicked {S A B} (m : M S A) (f : A -> M S B) s s' :
  m s = Panicked s' -> bind m f s = Panicked s'.
Proof. unfold bind. now intros ->. Qed.

Lemma bind_inv {S A B} (m : M S A) (f : A -> M S B) s b s'' :
  bind m f s = Returned b s'' ->
  exists a s', m s = Returned a s' /\ f a s' = Returned b s''.
Proof.
  unfold bind. destruct (m s) as [a s' | s' | s']; try discriminate.
  intros E. now exists a, s'.
Qed.

(** [step lem] runs the first operation of a sequence with the equation
    [lem] that describes it. *)
Ltac step lem := erewrite bind_Returned by (eapply lem; eauto).

(** ** Round-robin positions *)

Lemma positions_step cursor len n :
  positions cursor len (S n)
  = (cursor + 1) mod len :: positions (cursor + 1) len n.
Proof.
  unfold positions. cbn [seq map]. rewrite Z.add_0_r. f_equal.
  rewrite <- seq_shift, map_map. apply map_ext. intros k.
  f_equal. lia.
Qed.

Lemma positions_app cursor len n m :
  positions cursor len (n + m)
  = positions cursor len n ++ positions (cursor + Z.of_nat n) len m.
Proof.
  revert cursor. induction n as [| n IH]; intros cursor.
  - cbn [Nat.add Z.of_nat positions]. now rewrite Z.add_0_r.
  - cbn [Nat.add]. rewrite !positions_step, IH. cbn [app].
    do 3 f_equal. lia.
Qed.

Lemma positions_shift cursor len n :
  positions (cursor + len) len n = positions cursor len n.
Proof.
  unfold positions. apply map_ext. intros k.
  replace (cursor + len + 1 + Z.of_nat k)
    with (cursor + 1 + Z.of_nat k + 1 * len) by lia.
  apply Z_mod_plus_full.
Qed.

(** Two rounds visit the positions of one round twice, in the same order. *)
Lemma positions_two_rounds cursor (N : nat) :
  positions cursor (Z.of_nat N) (N + N)
  = positions cursor (Z.of_nat N) N ++ positions cursor (Z.of_nat N) N.
Proof. now rewrite positions_app, positions_shift. Qed.

(** One round visits every position exactly once. *)
Lemma positions_round_perm cursor (N : nat) :
  (0 < N)%nat ->
  Permutation (positions cursor (Z.of_nat N) N) (map Z.of_nat (seq 0 N)).
Proof.
  intros HN. apply NoDup_Permutation_bis.
  - unfold positions. apply Finite.Injective_map_NoDup_in; [| apply seq_NoDup].
    intros x y Hx Hy Heq. apply in_seq in Hx, Hy.
    assert (Hd : (Z.of_nat x - Z.of_nat y) mod Z.of_nat N = 0).
    { replace (Z.of_nat x - Z.of_nat y)
        with ((cursor + 1 + Z.of_nat x) - (cursor + 1 + Z.of_nat y)) by lia.
      rewrite Zminus_mod, Heq, Z.sub_diag. apply Z.mod_0_l. lia. }
    apply Z.mod_divide in Hd; [| lia].
    destruct Hd as [q Hq].
    assert (Hq0 : q = 0)
      by (destruct (Z.lt_trichotomy q 0) as [Hlt | [Hz | Hgt]]; nia).
    subst q. lia.
  - unfold positions. rewrite !length_map. lia.
  - unfold positions. intros z Hz. apply in_map_iff in Hz as (k & <- & _).
    assert (Hb : 0 <= (cursor + 1 + Z.of_nat k) mod Z.of_nat N < Z.of_nat N)
      by (apply Z.mod_pos_bound; lia).
    apply in_map_iff.
    exists (Z.to_nat ((cursor + 1 + Z.of_nat k) mod Z.of_nat N)).
    split; [lia |]. apply in_seq. lia.
Qed.

Section PoolFacts.

Context {T : Type} `{Connection T}.
Variable empty : T.

Implicit Types (p : Pool T) (w : World T) (s : St T) (c : T).
Implicit Types (l rest kept : list T) (f : nat -> T + error).
Implicit Types (o : PoolOptions.t T) (lg : Logger).

(** ** Elementary steps *)

Lemma get_pool_run p w : get_pool (p, w) = Returned p (p, w).
Proof. reflexivity. Qed.

Lemma mod_pool_run (g : Pool T -> Pool T) p w :
  mod_pool g (p, w) = Returned tt (g p, w).
Proof. reflexivity. Qed.

Lemma Size_run p w :
  Size (p, w) = Returned (Z.of_nat (length (pool p))) (p, w).
Proof. reflexivity. Qed.

Lemma Debugf_run format p w :
  Debugf format (p, w)
  = Returned tt (p, emits [EvDebugf (log p) format] w).
Proof. reflexivity. Qed.

Lemma Errorf_run format p w :
  Errorf format (p, w)
  = Returned tt (p, emits [EvErrorf (log p) format] w).
Proof. reflexivity. Qed.

Lemma reportError_run p w :
  reportError (p, w) = Returned tt (p, emits (errors_metric (opts p)) w).
Proof.
  unfold reportError, errors_metric, bind, get_pool; cbn [fst snd].
  destruct (PoolOptions.Metrics (opts p)) as [m|];
    [destruct (PoolMetrics.ConnectionErrors m) |];
    cbn; rewrite ?emits_nil; reflexivity.
Qed.

Lemma reportSize_run size p w :
  reportSize size (p, w)
  = Returned tt (p, emits (gauge_metric (opts p) size) w).
Proof.
  unfold reportSize, gauge_metric, bind, get_pool; cbn [fst snd].
  destruct (PoolOptions.Metrics (opts p)) as [m|];
    [destruct (PoolMetrics.Connections m) |];
    cbn; rewrite ?emits_nil; reflexivity.
Qed.

Lemma reportRetrieval_run p w :
  reportRetrieval (p, w)
  = Returned tt (p, emits (retrieval_metric (opts p)) w).
Proof.
  unfold reportRetrieval, retrieval_metric, bind, get_pool; cbn [fst snd].
  destruct (PoolOptions.Metrics (opts p)) as [m|];
    [destruct (PoolMetrics.Retrievals m) |];
    cbn; rewrite ?emits_nil; reflexivity.
Qed.

(** Closing a connection and logging the failure, if any. *)
Lemma close_and_log_run {A} c (k : Op A) p w :
  (err <- close_conn c ;;
   match err with
   | Some _ => Errorf "failed to close connection: %v"
   | None => ret tt
   end ;;;
   k) (p, w)
  = k (p, emits (close_events (log p) c) w).
Proof.
  unfold close_conn, close_events, Errorf, bind, mod_world, get_pool, ret;
    cbn [fst snd].
  destruct (conn_Close c); cbn [fst snd];
    rewrite ?emit_emits, ?emits_emits; reflexivity.
Qed.

Lemma in_bounds_true (i n : Z) :
  0 <= i < n -> (0 <=? i) && (i <? n) = true.
Proof.
  intros. apply andb_true_iff; split; [apply Z.leb_le | apply Z.ltb_lt]; lia.
Qed.

Lemma elem_at_app kept c rest s :
  elem_at (kept ++ c :: rest) (Z.of_nat (length kept)) s = Returned c s.
Proof.
  unfold elem_at.
  rewrite in_bounds_true by (rewrite length_app; cbn [length]; lia).
  rewrite Nat2Z.id, nth_error_app2, Nat.sub_diag by lia.
  reflexivity.
Qed.

Lemma elem_at_inv l i s c s' :
  elem_at l i s = Returned c s' ->
  s' = s /\ 0 <= i < Z.of_nat (length l)
  /\ nth_error l (Z.to_nat i) = Some c.
Proof.
  unfold elem_at.
  destruct ((0 <=? i) && (i <? Z.of_nat (length l))) eqn:Hb;
    [| discriminate].
  apply andb_true_iff in Hb as [H0 H1].
  apply Z.leb_le in H0. apply Z.ltb_lt in H1.
  destruct (nth_error l (Z.to_nat i)) eqn:Hn; [| discriminate].
  unfold ret. intros E; inversion E; subst. auto.
Qed.

Lemma elem_at_in_range l i s :
  0 <= i < Z.of_nat (length l) ->
  exists c, elem_at l i s = Returned c s
            /\ nth_error l (Z.to_nat i) = Some c.
Proof.
  intros Hi. unfold elem_at. rewrite in_bounds_true by lia.
  destruct (nth_error l (Z.to_nat i)) as [c|] eqn:Hn.
  - exists c; auto.
  - apply nth_error_None in Hn. lia.
Qed.

Lemma elem_at_out_of_range l i s :
  i < 0 \/ Z.of_nat (length l) <= i -> elem_at l i s = Panicked s.
Proof.
  intros Hi. unfold elem_at.
  destruct ((0 <=? i) && (i <? Z.of_nat (length l))) eqn:Hb; [| reflexivity].
  apply andb_true_iff in Hb as [H0 H1].
  apply Z.leb_le in H0. apply Z.ltb_lt in H1. lia.
Qed.

Lemma remove_at_app (kept : list T) c rest :
  firstn (length kept) (kept ++ c :: rest)
    ++ skipn (S (length kept)) (kept ++ c :: rest)
  = kept ++ rest.
Proof.
  rewrite firstn_app, Nat.sub_diag, firstn_all; cbn [firstn].
  rewrite app_nil_r. f_equal.
  induction kept as [| x kept IH]; [reflexivity | exact IH].
Qed.

Lemma removeFromPool_app kept c rest p w :
  pool p = kept ++ c :: rest ->
  removeFromPool (Z.of_nat (length kept)) (p, w)
  = Returned tt (set_pool (kept ++ rest) p, w).
Proof.
  intros Hp. unfold removeFromPool, bind, get_pool, mod_pool; cbn [fst snd].
  rewrite Hp.
  rewrite in_bounds_true by (rewrite length_app; cbn [length]; lia).
  replace (Z.to_nat (Z.of_nat (length kept) + 1)) with (S (length kept))
    by lia.
  rewrite Nat2Z.id, remove_at_app. reflexivity.
Qed.

Lemma set_pool_same p : set_pool (pool p) p = p.
Proof. destruct p; reflexivity. Qed.

(** ** The health loop *)

Lemma health_loop_spec healthy rest :
  forall kept p w i removed,
    pool p = kept ++ rest ->
    i - removed = Z.of_nat (length kept) ->
    health_loop healthy (length rest) i removed (p, w)
    = Returned tt
        (set_pool (kept ++ filter healthy rest) p,
         emits (flat_map (evict_events (log p) (opts p))
                         (filter (unhealthy healthy) rest)) w).
Proof.
  induction rest as [| c rest IH]; intros kept p w i removed Hp Hi.
  - cbn. rewrite emits_nil, app_nil_r in *. now rewrite <- Hp, set_pool_same.
  - cbn [length health_loop].
    step get_pool_run. rewrite Hp, Hi. step elem_at_app.
    unfold unhealthy. cbn [filter].
    destruct (healthy c) eqn:Hc; cbn [negb].
    + rewrite (IH (kept ++ [c]) p w (i + 1) removed).
      * now rewrite <- app_assoc.
      * now rewrite Hp, <- app_assoc.
      * rewrite length_app; cbn [length]. lia.
    + step get_pool_run. rewrite Hp. step elem_at_app.
      rewrite close_and_log_run.
      step Errorf_run. step reportError_run.
      step removeFromPool_app.
      rewrite (IH kept _ _ (i + 1) (removed + 1));
        cbn [pool set_pool log opts]; try lia; try reflexivity.
      cbn [flat_map]. unfold evict_events at 2.
      rewrite !emits_emits, <- !app_assoc. reflexivity.
Qed.

(** ** The replenishment loop *)

Lemma Return_run c p w :
  Return c (p, w) = Returned tt (set_pool (pool p ++ [c]) p, w).
Proof. reflexivity. Qed.

Lemma call_Connect_run f p w :
  PoolOptions.Connect (opts p) = Some f ->
  call_Connect (p, w)
  = Returned (f (connect_calls w))
             (p, mkWorld (S (connect_calls w))
                         (trace w ++ [EvConnect (connect_calls w)])).
Proof.
  intros Hf. unfold call_Connect, bind, get_pool; cbn [fst snd].
  now rewrite Hf.
Qed.

Lemma connect_loop_spec f n :
  forall p w,
    PoolOptions.Connect (opts p) = Some f ->
    connect_loop n (p, w)
    = Returned tt
        (set_pool (pool p ++ connect_results f (connect_calls w) n) p,
         mkWorld (connect_calls w + n)
                 (trace w
                  ++ connect_events (log p) (opts p) f (connect_calls w) n)).
Proof.
  induction n as [| n IH]; intros p w Hf.
  - cbn. rewrite !app_nil_r, Nat.add_0_r, set_pool_same.
    now destruct w.
  - cbn [connect_loop connect_results connect_events].
    step call_Connect_run.
    destruct (f (connect_calls w)) as [c | e].
    + step Return_run. rewrite IH by exact Hf.
      cbn [pool set_pool log opts connect_calls trace].
      rewrite <- !app_assoc. cbn [app].
      now replace (S (connect_calls w) + n)%nat
        with (connect_calls w + S n)%nat by lia.
    + step Errorf_run. step reportError_run. rewrite IH by exact Hf.
      unfold emits. cbn [pool set_pool log opts connect_calls trace].
      rewrite <- !app_assoc. cbn [app].
      now replace (S (connect_calls w) + n)%nat
        with (connect_calls w + S n)%nat by lia.
Qed.

Lemma connect_results_length_le f k n :
  (length (connect_results f k n) <= n)%nat.
Proof.
  revert k; induction n as [| n IH]; intros k; cbn; [lia |].
  destruct (f k); cbn; specialize (IH (S k)); lia.
Qed.

Lemma connect_results_all_ok f k n :
  (forall j, exists c, f j = inl c) ->
  length (connect_results f k n) = n.
Proof.
  intros Hok. revert k; induction n as [| n IH]; intros k; cbn; [easy |].
  destruct (Hok k) as [c ->]. cbn. now rewrite IH.
Qed.

(** ** The loop of [Close] *)

Lemma close_loop_spec rest :
  forall p w,
    pool p = rest ->
    close_loop (length rest) (p, w)
    = Returned tt
        (set_pool [] p, emits (flat_map (close_events (log p)) rest) w).
Proof.
  induction rest as [| c rest IH]; intros p w Hp.
  - cbn. rewrite emits_nil, <- Hp. now rewrite set_pool_same.
  - cbn [length close_loop flat_map].
    step get_pool_run. rewrite Hp.
    step (elem_at_app []).
    rewrite close_and_log_run.
    step (removeFromPool_app [] c rest).
    cbn [app]. rewrite IH by reflexivity.
    cbn [log set_pool]. now rewrite emits_emits.
Qed.

(** ** One reconciliation pass *)

Lemma recv_closed_run p w :
  recv_closed (p, w)
  = Returned (closed p) (if closed p then set_closed false p else p, w).
Proof.
  unfold recv_closed, bind, get_pool; cbn [fst snd].
  now destruct (closed p).
Qed.

(** A pass on a pool whose closed signal is pending takes the signal and
    does nothing else. *)
Lemma probe_closed p w :
  closed p = true ->
  probe (p, w)
  = Returned tt (set_closed false p,
                 emits [EvDebugf (log p) "probing connection pool"] w).
Proof.
  intros Hc. unfold probe.
  step Debugf_run. step recv_closed_run. now rewrite Hc.
Qed.

(** The fast path: the registry is at the target size. *)
Lemma probe_fast p w :
  closed p = false ->
  Z.of_nat (length (pool p)) = PoolOptions.Connections (opts p) ->
  probe (p, w)
  = Returned tt
      (p, emits ([EvDebugf (log p) "probing connection pool"]
                   ++ gauge_metric (opts p) (Z.of_nat (length (pool p))))
                w).
Proof.
  intros Hc Hlen. unfold probe.
  step Debugf_run. step recv_closed_run. rewrite Hc.
  step Size_run. step reportSize_run. step get_pool_run.
  rewrite Hlen, Z.eqb_refl. unfold ret. now rewrite emits_emits.
Qed.

(** Every other pass: health eviction, then replenishment. *)
Lemma probe_slow f p w :
  closed p = false ->
  Z.of_nat (length (pool p)) <> PoolOptions.Connections (opts p) ->
  PoolOptions.Connect (opts p) = Some f ->
  probe (p, w)
  = Returned tt
      (set_pool (survivors (opts p) (pool p)
                   ++ connect_results f (connect_calls w)
                        (replenish_count (opts p) (pool p))) p,
       mkWorld (connect_calls w + replenish_count (opts p) (pool p))
               (trace w
                ++ pass_events (log p) (opts p) f (pool p)
                     (connect_calls w))).
Proof.
  intros Hc Hlen Hf. unfold probe.
  step Debugf_run. step recv_closed_run. rewrite Hc.
  step Size_run. step reportSize_run. step get_pool_run.
  apply Z.eqb_neq in Hlen. rewrite Hlen.
  unfold pass_events, survivors, evicted, replenish_count.
  destruct (PoolOptions.Healthy (opts p)) as [healthy |].
  - rewrite Nat2Z.id.
    erewrite bind_Returned
      by (apply (health_loop_spec healthy (pool p) []); reflexivity).
    rewrite connect_loop_spec with (f := f) by exact Hf.
    cbn [pool set_pool log opts app]. unfold emits.
    cbn [connect_calls trace]. now rewrite <- !app_assoc.
  - unfold ret at 1. unfold bind at 1.
    rewrite connect_loop_spec with (f := f) by exact Hf.
    unfold emits. cbn [connect_calls trace flat_map app].
    now rewrite <- !app_assoc.
Qed.

(** ** Construction *)

Lemma connect_run p w :
  connect (p, w)
  = probe (p, emits [EvDebugf (log p)
                       "creating connection pool with %d connections"] w).
Proof. unfold connect. now step Debugf_run. Qed.

Lemma validate_ok_inv (o : PoolOptions.t T) :
  validate o = None ->
  (exists f, PoolOptions.Connect o = Some f)
  /\ 1 <= PoolOptions.Connections o
  /\ 0 < PoolOptions.ProbeInterval o.
Proof.
  unfold validate.
  destruct (PoolOptions.Connect o) as [f|]; [| discriminate].
  destruct (PoolOptions.Connections o <? 1) eqn:Hc; [discriminate |].
  destruct (PoolOptions.ProbeInterval o <=? 0) eqn:Hi; [discriminate |].
  intros _. apply Z.ltb_ge in Hc. apply Z.leb_gt in Hi. eauto.
Qed.

(** C6.  Construction rejects an invalid configuration with one error per
    cause and creates no pool: a missing factory gives the no-connect-func
    error whatever the other fields hold; with a factory, a count below 1
    gives the invalid-count error; with a factory and a valid count, a
    non-positive interval gives the invalid-interval error; every other
    configuration is accepted, whatever its health predicate, logger and
    metrics sink are.  The three errors are pairwise distinct, and a
    rejected construction leaves the world untouched. *)
Theorem validate_distinct_errors (o : PoolOptions.t T) (w : World T) :
  (PoolOptions.Connect o = None ->
   validate o = Some ErrNoConnectFunc)
  /\ (PoolOptions.Connect o <> None ->
      PoolOptions.Connections o <= 0 ->
      validate o = Some ErrInvalidConnectionCount)
  /\ (PoolOptions.Connect o <> None ->
      1 <= PoolOptions.Connections o ->
      PoolOptions.ProbeInterval o <= 0 ->
      validate o = Some ErrInvalidProbeInterval)
  /\ (PoolOptions.Connect o <> None ->
      1 <= PoolOptions.Connections o ->
      0 < PoolOptions.ProbeInterval o ->
      validate o = None)
  /\ (forall healthy logger metrics,
        validate (PoolOptions.mk (PoolOptions.Connect o) healthy
                    (PoolOptions.Connections o)
                    (PoolOptions.ProbeInterval o) logger metrics)
        = validate o)
  /\ (forall err, validate o = Some err ->
                  New o w = inl (err, w)
                  /\ (err = ErrNoConnectFunc
                      \/ err = ErrInvalidConnectionCount
                      \/ err = ErrInvalidProbeInterval))
  /\ (validate o = None -> exists out, New o w = inr out)
  /\ ErrNoConnectFunc <> ErrInvalidConnectionCount
  /\ ErrNoConnectFunc <> ErrInvalidProbeInterval
  /\ ErrInvalidConnectionCount <> ErrInvalidProbeInterval.
Proof.
  unfold New, validate.
  destruct (PoolOptions.Connect o) as [f|] eqn:Hf.
  - destruct (Z.ltb_spec (PoolOptions.Connections o) 1) as [Hc | Hc];
      [| destruct (Z.leb_spec (PoolOptions.ProbeInterval o) 0) as [Hi | Hi]].
    all: repeat split; intros; cbn [PoolOptions.Connect
           PoolOptions.Connections PoolOptions.ProbeInterval];
      try congruence; try lia; try discriminate.
    all: try (rewrite Hf).
    all: try (destruct (Z.ltb_spec (PoolOptions.Connections o) 1);
              try lia;
              destruct (Z.leb_spec (PoolOptions.ProbeInterval o) 0);
              try lia; reflexivity).
    all: try (match goal with
              | E : Some _ = Some _ |- _ => inversion E; subst; auto
              end).
    all: eauto.
  - repeat split; intros; cbn [PoolOptions.Connect]; try congruence;
      try discriminate; try (rewrite Hf; reflexivity).
    match goal with
    | E : Some _ = Some _ |- _ => inversion E; subst; auto
    end.
Qed.

(** C7.  Construction runs one reconciliation pass before it returns: for
    a valid configuration whose factory always succeeds, [Size] equals
    the target count in the state [New] returns. *)
Theorem New_fills_pool (o : PoolOptions.t T) f (w : World T) :
  validate o = None ->
  PoolOptions.Connect o = Some f ->
  (forall k, exists c, f k = inl c) ->
  exists s,
    New o w = inr (Returned tt s)
    /\ Size s = Returned (PoolOptions.Connections o) s
    /\ opts (fst s) = o.
Proof.
  intros Hv Hf Hok.
  destruct (validate_ok_inv o Hv) as (_ & Hn & _).
  unfold New. rewrite Hv, connect_run.
  rewrite (probe_slow f); cbn [new_pool opts pool closed length]; auto;
    [| lia].
  eexists. split; [reflexivity |].
  cbn [fst set_pool opts]. split; [| reflexivity].
  rewrite Size_run. cbn [pool set_pool survivors].
  f_equal.
  rewrite length_app, connect_results_all_ok by exact Hok.
  unfold survivors, replenish_count.
  destruct (PoolOptions.Healthy o); cbn [filter length]; lia.
Qed.

(** ** Reading the trace of a pass *)

Lemma closes_of_app (a b : list (Event T)) :
  closes_of (a ++ b) = closes_of a ++ closes_of b.
Proof. apply flat_map_app. Qed.

Lemma closes_of_errors_metric o : closes_of (errors_metric o) = [].
Proof.
  unfold errors_metric.
  destruct (PoolOptions.Metrics o) as [m|];
    [destruct (PoolMetrics.ConnectionErrors m) |]; reflexivity.
Qed.

Lemma closes_of_gauge_metric o size : closes_of (gauge_metric o size) = [].
Proof.
  unfold gauge_metric.
  destruct (PoolOptions.Metrics o) as [m|];
    [destruct (PoolMetrics.Connections m) |]; reflexivity.
Qed.

Lemma closes_of_close_events lg c : closes_of (close_events lg c) = [c].
Proof. unfold close_events. now destruct (conn_Close c). Qed.

Lemma closes_of_drain lg l :
  closes_of (flat_map (close_events lg) l) = l.
Proof.
  induction l as [| c l IH]; [reflexivity |].
  cbn [flat_map]. rewrite closes_of_app, closes_of_close_events, IH.
  reflexivity.
Qed.

Lemma closes_of_evictions lg o l :
  closes_of (flat_map (evict_events lg o) l) = l.
Proof.
  induction l as [| c l IH]; [reflexivity |].
  cbn [flat_map]. unfold evict_events at 1.
  rewrite !closes_of_app, closes_of_close_events, closes_of_errors_metric, IH.
  reflexivity.
Qed.

Lemma closes_of_connect_events lg o f k n :
  closes_of (connect_events lg o f k n) = [].
Proof.
  revert k; induction n as [| n IH]; intros k; [reflexivity |].
  cbn [connect_events]. rewrite closes_of_app, IH, app_nil_r.
  destruct (f k); cbn; [reflexivity | apply closes_of_errors_metric].
Qed.

Lemma closes_of_pass_events lg o f l k :
  closes_of (pass_events lg o f l k) = evicted o l.
Proof.
  unfold pass_events.
  rewrite !closes_of_app, closes_of_gauge_metric, closes_of_evictions,
    closes_of_connect_events, app_nil_r.
  reflexivity.
Qed.

(** ** Shutdown *)

Lemma Close_done p w : closer p = true -> Close (p, w) = Returned tt (p, w).
Proof.
  intros Hc. unfold Close. step get_pool_run. now rewrite Hc.
Qed.

Lemma Close_first p w :
  closer p = false ->
  closed p = false ->
  Close (p, w)
  = Returned tt
      (set_pool [] (set_closed true (set_closer true p)),
       emits (EvDebugf (log p) "closing connection pool"
                :: flat_map (close_events (log p)) (pool p)) w).
Proof.
  intros Hc Hs. unfold Close. step get_pool_run. rewrite Hc.
  step mod_pool_run. step Debugf_run.
  unfold send_closed at 1.
  erewrite bind_Returned; cycle 1.
  { step get_pool_run. cbn [closed set_closer]. rewrite Hs.
    apply mod_pool_run. }
  step Size_run. rewrite Nat2Z.id.
  rewrite close_loop_spec by reflexivity.
  cbn [log set_closed set_closer pool]. now rewrite emits_emits.
Qed.

Lemma Close_blocked p w :
  closer p = false ->
  closed p = true ->
  exists s', Close (p, w) = Blocked s'.
Proof.
  intros Hc Hs. unfold Close. step get_pool_run. rewrite Hc.
  step mod_pool_run. step Debugf_run.
  unfold send_closed, bind at 1, bind at 1, get_pool. cbn [fst closed set_closer].
  rewrite Hs. unfold block. eauto.
Qed.

Lemma Close_many_done n p w :
  closer p = true -> Close_many n (p, w) = Returned tt (p, w).
Proof.
  intros Hc. induction n as [| n IH]; [reflexivity |].
  cbn [Close_many]. step Close_done. exact IH.
Qed.

(** C5.  [Close] is idempotent: calling it any number of times (at least
    once) gives the outcome of calling it once.  The first [Close] on a
    pool returns with an empty registry ([Size] is 0) after calling the
    close operation of every connection of the registry exactly once, in
    registry order; a failing close is logged and nothing else happens
    because of it. *)
Theorem Close_idempotent p w (n : nat) :
  Close_many (S n) (p, w) = Close (p, w)
  /\ (closer p = false -> closed p = false ->
      exists p' w',
        Close (p, w) = Returned tt (p', w')
        /\ Size (p', w') = Returned 0 (p', w')
        /\ pool p' = []
        /\ closer p' = true
        /\ trace w'
           = trace w
               ++ EvDebugf (log p) "closing connection pool"
                    :: flat_map (close_events (log p)) (pool p)
        /\ closes_of (trace w') = closes_of (trace w) ++ pool p
        /\ connect_calls w' = connect_calls w).
Proof.
  split.
  - cbn [Close_many].
    destruct (closer p) eqn:Hc.
    + step Close_done. rewrite Close_done by assumption.
      now apply Close_many_done.
    + destruct (closed p) eqn:Hs.
      * destruct (Close_blocked p w Hc Hs) as [s' Hb].
        unfold bind. now rewrite Hb.
      * step Close_first. rewrite Close_first by assumption.
        now apply Close_many_done.
  - intros Hc Hs. do 2 eexists.
    split; [apply Close_first; assumption |].
    repeat split.
    cbn [emits trace].
    change (EvDebugf (log p) "closing connection pool"
              :: flat_map (close_events (log p)) (pool p))
      with ([EvDebugf (T := T) (log p) "closing connection pool"]
              ++ flat_map (close_events (log p)) (pool p)).
    now rewrite !closes_of_app, closes_of_drain.
Qed.

(** ** Health eviction *)

(** C2, as the code has it.  A pass on an open pool whose registry size
    differs from the target count removes from the registry every
    connection its health predicate reports unhealthy and calls the close
    operation of each of them exactly once, keeping the healthy ones in
    order; a pass that finds the registry at the target count performs no
    health check: it removes nothing and closes nothing. *)
Theorem probe_evicts_unless_full p w healthy :
  validate (opts p) = None ->
  closed p = false ->
  PoolOptions.Healthy (opts p) = Some healthy ->
  exists p' w' evs,
    probe (p, w) = Returned tt (p', w')
    /\ trace w' = trace w ++ evs
    /\ (Z.of_nat (length (pool p)) <> PoolOptions.Connections (opts p) ->
        closes_of evs = filter (unhealthy healthy) (pool p)
        /\ exists added,
             pool p' = filter healthy (pool p) ++ added
             /\ (length added
                 <= Z.to_nat (PoolOptions.Connections (opts p)
                              - Z.of_nat (length (pool p))))%nat)
    /\ (Z.of_nat (length (pool p)) = PoolOptions.Connections (opts p) ->
        closes_of evs = [] /\ pool p' = pool p).
Proof.
  intros Hv Hc Hh.
  destruct (validate_ok_inv _ Hv) as ((f & Hf) & _ & _).
  destruct (Z.eq_dec (Z.of_nat (length (pool p)))
                     (PoolOptions.Connections (opts p))) as [E | NE].
  - do 3 eexists. split; [apply probe_fast; assumption |].
    split; [reflexivity |]. split; [intros; contradiction |].
    intros _. rewrite closes_of_app, closes_of_gauge_metric. auto.
  - do 3 eexists. split; [apply (probe_slow f); assumption |].
    split; [reflexivity |]. split; [| intros; contradiction].
    intros _. rewrite closes_of_pass_events.
    unfold evicted, survivors. rewrite Hh. split; [reflexivity |].
    eexists. split; [reflexivity |]. apply connect_results_length_le.
Qed.

(** ** Retrieval *)

Lemma AddUint64_next_run delta p w :
  AddUint64_next delta (p, w)
  = Returned ((next p + delta) mod uint64_mod)
             (set_next ((next p + delta) mod uint64_mod) p, w).
Proof. reflexivity. Qed.

Lemma length_zero_eqb l :
  (Z.of_nat (length l) =? 0) = match l with [] => true | _ => false end.
Proof. destruct l; [reflexivity |]. cbn [length]. apply Z.eqb_neq. lia. Qed.

Lemma Next_empty p w :
  pool p = [] -> Next empty (p, w) = Returned (empty, false) (p, w).
Proof.
  intros Hp. unfold Next. step Size_run. now rewrite Hp.
Qed.

Lemma Next_nonempty p w :
  pool p <> [] ->
  Next empty (p, w)
  = (c <- elem_at (pool p) (next_index p) ;; ret (c, true))
      (set_next (bumped p) p, emits (retrieval_metric (opts p)) w).
Proof.
  intros Hp. unfold Next. step Size_run. rewrite length_zero_eqb.
  destruct (pool p) eqn:E; [contradiction |]. rewrite <- E.
  step AddUint64_next_run. step reportRetrieval_run. step get_pool_run.
  reflexivity.
Qed.

Lemma ExNext_empty p w :
  pool p = [] -> ExNext empty (p, w) = Returned (empty, false) (p, w).
Proof.
  intros Hp. unfold ExNext. do 2 step Size_run. now rewrite Hp.
Qed.

Lemma ExNext_nonempty p w :
  pool p <> [] ->
  ExNext empty (p, w)
  = (conn <- elem_at (pool p) (next_index p) ;;
     reportRetrieval ;;;
     removeFromPool (next_index p) ;;;
     ret (conn, true))
      (set_next (bumped p) p, w).
Proof.
  intros Hp. unfold ExNext. do 2 step Size_run. rewrite length_zero_eqb.
  destruct (pool p) eqn:E; [contradiction |]. rewrite <- E.
  step AddUint64_next_run. step get_pool_run.
  reflexivity.
Qed.

(** While the incremented cursor fits a non-negative [int], the index is
    the cursor modulo the registry size. *)
Lemma next_index_in_range p :
  pool p <> [] ->
  0 <= next p < int_max ->
  bumped p = next p + 1
  /\ next_index p = (next p + 1) mod Z.of_nat (length (pool p))
  /\ 0 <= next_index p < Z.of_nat (length (pool p)).
Proof.
  intros Hp Hn. unfold next_index, bumped, go_rem, int_of_uint64.
  assert (Hlen : 0 < Z.of_nat (length (pool p))).
  { destruct (pool p); [contradiction | cbn [length]; lia]. }
  assert (Hmax : int_max < uint64_mod) by (vm_compute; reflexivity).
  rewrite Z.mod_small by lia.
  destruct (Z.leb_spec (next p + 1) int_max) as [_ | Hgt]; [| lia].
  rewrite Z.rem_mod_nonneg by lia.
  split; [reflexivity |]. split; [reflexivity |].
  apply Z.mod_pos_bound. lia.
Qed.

Lemma Next_inv p w c (b : bool) s' :
  Next empty (p, w) = Returned (c, b) s' ->
  (b = false /\ c = empty /\ pool p = [] /\ s' = (p, w))
  \/ (b = true
      /\ 0 <= next_index p
      /\ nth_error (pool p) (Z.to_nat (next_index p)) = Some c
      /\ s' = (set_next (bumped p) p,
               emits (retrieval_metric (opts p)) w)).
Proof.
  destruct (pool p) as [| c0 l] eqn:E.
  - rewrite Next_empty by exact E. intros Eq; inversion Eq; subst. auto.
  - assert (Hne : pool p <> []) by (rewrite E; discriminate).
    rewrite Next_nonempty by exact Hne. rewrite <- E.
    intros Eq. apply bind_inv in Eq as (c' & s1 & He & Hr).
    apply elem_at_inv in He as (-> & Hi & Hnth).
    unfold ret in Hr. inversion Hr; subst. right. repeat split; tauto.
Qed.

Lemma ExNext_inv p w c (b : bool) s' :
  ExNext empty (p, w) = Returned (c, b) s' ->
  (b = false /\ c = empty /\ pool p = [] /\ s' = (p, w))
  \/ (b = true
      /\ exists l1 l2,
          pool p = l1 ++ c :: l2
          /\ Z.of_nat (length l1) = next_index p
          /\ s' = (set_pool (l1 ++ l2) (set_next (bumped p) p),
                   emits (retrieval_metric (opts p)) w)).
Proof.
  destruct (pool p) as [| c0 l] eqn:E.
  - rewrite ExNext_empty by exact E. intros Eq; inversion Eq; subst. auto.
  - assert (Hne : pool p <> []) by (rewrite E; discriminate).
    rewrite ExNext_nonempty by exact Hne. rewrite <- E.
    intros Eq. apply bind_inv in Eq as (c' & s1 & He & Hr).
    apply elem_at_inv in He as (-> & Hi & Hnth).
    apply nth_error_split in Hnth as (l1 & l2 & Hl & Hlen).
    assert (Hidx : next_index p = Z.of_nat (length l1)) by lia.
    rewrite Hidx in Hr.
    rewrite (bind_Returned _ _ _ _ _ (reportRetrieval_run _ _)) in Hr.
    erewrite bind_Returned in Hr
      by (apply (removeFromPool_app l1 c' l2); exact Hl).
    unfold ret in Hr. inversion Hr; subst. right. split; [reflexivity |].
    exists l1, l2. auto.
Qed.

Lemma ExNext_in_range p w :
  pool p <> [] ->
  0 <= next p < int_max ->
  exists c s', ExNext empty (p, w) = Returned (c, true) s'.
Proof.
  intros Hp Hn.
  destruct (next_index_in_range p Hp Hn) as (_ & _ & Hi).
  rewrite ExNext_nonempty by exact Hp.
  destruct (elem_at_in_range (pool p) (next_index p)
              (set_next (bumped p) p, w) Hi) as (c & He & Hnth).
  apply nth_error_split in Hnth as (l1 & l2 & Hl & Hlen).
  step He. step reportRetrieval_run.
  replace (next_index p) with (Z.of_nat (length l1)) by lia.
  erewrite bind_Returned
    by (apply (removeFromPool_app l1 c l2); exact Hl).
  unfold ret. eauto.
Qed.

Lemma Next_in_range p w :
  pool p <> [] ->
  0 <= next p < int_max ->
  exists c,
    Next empty (p, w)
    = Returned (c, true)
               (set_next (next p + 1) p,
                emits (retrieval_metric (opts p)) w)
    /\ nth_error (pool p)
                 (Z.to_nat ((next p + 1) mod Z.of_nat (length (pool p))))
       = Some c.
Proof.
  intros Hp Hn.
  destruct (next_index_in_range p Hp Hn) as (Hb & Hidx & Hi).
  rewrite Next_nonempty by exact Hp.
  destruct (elem_at_in_range (pool p) (next_index p)
              (set_next (bumped p) p,
               emits (retrieval_metric (opts p)) w) Hi)
    as (c & He & Hnth).
  exists c. step He. unfold ret. rewrite Hb.
  split; [reflexivity |]. now rewrite <- Hidx.
Qed.

(** ** Exclusive retrieval and return *)

Lemma NoDup_app_disjoint (l1 l2 : list T) c :
  NoDup (l1 ++ l2) -> In c l1 -> ~ In c l2.
Proof.
  induction l1 as [| x l1 IH]; cbn; [tauto |].
  intros Hnd [-> | Hin] Hin2.
  - inversion Hnd as [| ? ? Hnot _]; subst.
    apply Hnot, in_or_app. now right.
  - inversion Hnd; subst. now apply IH.
Qed.

Lemma ExNext_many_perm n :
  forall p w handed s',
    ExNext_many empty n (p, w) = Returned handed s' ->
    Permutation (handed ++ pool (fst s')) (pool p).
Proof.
  induction n as [| n IH]; intros p w handed s' Hrun.
  - cbn in Hrun. unfold ret in Hrun. inversion Hrun; subst. reflexivity.
  - cbn [ExNext_many] in Hrun.
    apply bind_inv in Hrun as ([c b] & [p1 w1] & Hex & Hrun).
    apply bind_inv in Hrun as (rest & s2 & Hrest & Hret).
    unfold ret in Hret. inversion Hret; subst. clear Hret.
    apply IH in Hrest. cbn [fst snd].
    apply ExNext_inv in Hex
      as [(-> & _ & _ & Es) | (-> & l1 & l2 & Hl & _ & Es)];
      inversion Es; subst; clear Es.
    + exact Hrest.
    + cbn [pool set_pool set_next] in Hrest. rewrite Hl.
      cbn [app]. now apply Permutation_cons_app.
Qed.

(** C4.  On an empty registry [ExNext] returns the absence result.  A
    successful [ExNext] removes exactly the registry entry it returns: the
    size drops by one and the other entries keep their order.  [Return] of
    that connection appends it to the end of the registry, which has its
    former size again and holds the connection.  The connections handed
    out by any number of [ExNext] calls with no [Return] in between,
    together with the entries left, are the registry the calls started
    from: an entry is never handed out twice, and when the registry holds
    no connection twice, no connection is handed out twice and none that
    was handed out is still in the registry.  On a non-empty registry
    whose incremented cursor fits a non-negative [int], [ExNext]
    succeeds. *)
Theorem ExNext_Return_roundtrip p w :
  (pool p = [] -> ExNext empty (p, w) = Returned (empty, false) (p, w))
  /\ (forall c s',
        ExNext empty (p, w) = Returned (c, true) s' ->
        pool p <> []
        /\ exists l1 l2,
            pool p = l1 ++ c :: l2
            /\ pool (fst s') = l1 ++ l2
            /\ Size s' = Returned (Z.of_nat (length (pool p)) - 1) s'
            /\ exists s'',
                Return c s' = Returned tt s''
                /\ pool (fst s'') = (l1 ++ l2) ++ [c]
                /\ Size s'' = Returned (Z.of_nat (length (pool p))) s''
                /\ In c (pool (fst s'')))
  /\ (forall n handed s',
        ExNext_many empty n (p, w) = Returned handed s' ->
        Permutation (handed ++ pool (fst s')) (pool p)
        /\ (NoDup (pool p) ->
            NoDup handed
            /\ forall c, In c handed -> ~ In c (pool (fst s'))))
  /\ (pool p <> [] -> 0 <= next p < int_max ->
      exists c s', ExNext empty (p, w) = Returned (c, true) s').
Proof.
  split; [apply ExNext_empty |].
  split; [| split; [| apply ExNext_in_range]].
  - intros c s' Hex.
    apply ExNext_inv in Hex as [(Hb & _) | (_ & l1 & l2 & Hl & _ & ->)];
      [discriminate |].
    split; [rewrite Hl; now destruct l1 |].
    exists l1, l2. split; [exact Hl |]. split; [reflexivity |].
    split.
    { rewrite Size_run. cbn [pool set_pool]. f_equal.
      rewrite Hl, !length_app. cbn [length]. lia. }
    eexists. split; [apply Return_run |].
    cbn [fst pool set_pool]. split; [reflexivity |].
    split.
    { rewrite Size_run. cbn [pool set_pool]. f_equal.
      rewrite Hl, !length_app. cbn [length]. lia. }
    apply in_or_app. right. now left.
  - intros n handed s' Hrun.
    pose proof (ExNext_many_perm n p w handed s' Hrun) as Hperm.
    split; [exact Hperm |].
    intros Hnd.
    assert (Hnd' : NoDup (handed ++ pool (fst s'))).
    { eapply Permutation_NoDup; [symmetry; exact Hperm | exact Hnd]. }
    split; [eapply NoDup_app_remove_r; exact Hnd' |].
    intros c. now apply NoDup_app_disjoint.
Qed.

(** ** The retrievals counter *)

Lemma retrievals_emits evs w :
  retrievals (emits evs w) = (retrievals w + count is_retrieval evs)%nat.
Proof.
  unfold retrievals, count, emits. cbn [trace].
  now rewrite filter_app, length_app.
Qed.

Lemma retrieval_metric_on o m :
  PoolOptions.Metrics o = Some m ->
  PoolMetrics.Retrievals m = true ->
  retrieval_metric o = [EvRetrievalsInc].
Proof. unfold retrieval_metric. now intros -> ->. Qed.

(** C8, as the code has it.  With a retrievals counter configured, every
    call of [Next] and every call of [ExNext] that returns a connection
    increments the counter by exactly one; a call against an empty
    registry returns the absence result and leaves the counter (and the
    rest of the state) as it was.  On a non-empty registry whose
    incremented cursor fits a non-negative [int], both calls return a
    connection. *)
Theorem retrievals_counted_on_success p w m :
  PoolOptions.Metrics (opts p) = Some m ->
  PoolMetrics.Retrievals m = true ->
  (forall c s',
      Next empty (p, w) = Returned (c, true) s' ->
      retrievals (snd s') = S (retrievals w))
  /\ (forall c s',
        ExNext empty (p, w) = Returned (c, true) s' ->
        retrievals (snd s') = S (retrievals w))
  /\ (pool p = [] ->
      Next empty (p, w) = Returned (empty, false) (p, w)
      /\ ExNext empty (p, w) = Returned (empty, false) (p, w))
  /\ (pool p <> [] -> 0 <= next p < int_max ->
      (exists c s', Next empty (p, w) = Returned (c, true) s')
      /\ (exists c s', ExNext empty (p, w) = Returned (c, true) s')).
Proof.
  intros Hm Hr.
  pose proof (retrieval_metric_on _ _ Hm Hr) as Hev.
  repeat split.
  - intros c s' Hn.
    apply Next_inv in Hn as [(Hb & _) | (_ & _ & _ & ->)];
      [discriminate |].
    cbn [snd]. rewrite retrievals_emits, Hev. cbn. lia.
  - intros c s' Hn.
    apply ExNext_inv in Hn as [(Hb & _) | (_ & l1 & l2 & _ & _ & ->)];
      [discriminate |].
    cbn [snd]. rewrite retrievals_emits, Hev. cbn. lia.
  - now apply Next_empty.
  - now apply ExNext_empty.
  - destruct (Next_in_range p w) as (c & Hn & _); eauto.
  - now apply ExNext_in_range.
Qed.

(** ** The size of the registry along a history *)

Lemma survivors_length o l : (length (survivors o l) <= length l)%nat.
Proof.
  unfold survivors. destruct (PoolOptions.Healthy o); [| lia].
  apply filter_length_le.
Qed.

(** A pass never leaves the registry larger than both its former size
    and the target count. *)
Lemma probe_size p w s' :
  validate (opts p) = None ->
  probe (p, w) = Returned tt s' ->
  opts (fst s') = opts p
  /\ Z.of_nat (length (pool (fst s')))
     <= Z.max (Z.of_nat (length (pool p)))
              (PoolOptions.Connections (opts p)).
Proof.
  intros Hv Hrun.
  destruct (validate_ok_inv _ Hv) as ((f & Hf) & _ & _).
  destruct (closed p) eqn:Hc.
  - rewrite probe_closed in Hrun by exact Hc.
    inversion Hrun; subst. cbn. split; [reflexivity | lia].
  - destruct (Z.eq_dec (Z.of_nat (length (pool p)))
                       (PoolOptions.Connections (opts p))) as [E | NE].
    + rewrite probe_fast in Hrun by assumption.
      inversion Hrun; subst. cbn [fst]. split; [reflexivity | lia].
    + rewrite (probe_slow f) in Hrun by assumption.
      inversion Hrun; subst. cbn [fst pool set_pool opts].
      split; [reflexivity |].
      rewrite length_app.
      pose proof (survivors_length (opts p) (pool p)).
      pose proof (connect_results_length_le f (connect_calls w)
                    (replenish_count (opts p) (pool p))).
      unfold replenish_count in *. lia.
Qed.

Lemma Close_size p w s' :
  Close (p, w) = Returned tt s' ->
  opts (fst s') = opts p
  /\ (length (pool (fst s')) <= length (pool p))%nat.
Proof.
  intros Hrun.
  destruct (closer p) eqn:Hc.
  - rewrite Close_done in Hrun by exact Hc. inversion Hrun; subst. auto.
  - destruct (closed p) eqn:Hs.
    + destruct (Close_blocked p w Hc Hs) as [s1 Hb]. congruence.
    + rewrite Close_first in Hrun by assumption.
      inversion Hrun; subst. cbn. split; [reflexivity | lia].
Qed.

Lemma New_size o w s :
  New o w = inr (Returned tt s) ->
  validate o = None
  /\ opts (fst s) = o
  /\ Z.of_nat (length (pool (fst s))) <= PoolOptions.Connections o.
Proof.
  unfold New. destruct (validate o) eqn:Hv; [discriminate |].
  intros E. inversion E as [Hrun]. clear E.
  rewrite connect_run in Hrun.
  apply probe_size in Hrun; [| exact Hv].
  destruct (validate_ok_inv _ Hv) as (_ & Hn & _).
  cbn [new_pool opts pool length] in Hrun.
  destruct Hrun as (Ho & Hlen). repeat split; [exact Ho | lia].
Qed.

(** C9, as the code has it.  Along every history of calls on a pool with
    target count [Connections] in which [Return] is only called on a
    connection obtained from [ExNext] and not yet given back, and in which
    no reconciliation pass runs while such a connection is held, the
    registry length together with the number of held connections never
    exceeds the target count; in particular the registry length stays
    within [0, Connections]. *)
Theorem registry_bounded_when_passes_are_quiet o held s :
  reach empty true o held s ->
  0 <= Z.of_nat (length (pool (fst s))) <= PoolOptions.Connections o
  /\ Z.of_nat (length (pool (fst s))) + Z.of_nat (length held)
     <= PoolOptions.Connections o.
Proof.
  intros Hr.
  assert (Hinv : validate o = None /\ opts (fst s) = o
                 /\ Z.of_nat (length (pool (fst s)))
                    + Z.of_nat (length held)
                    <= PoolOptions.Connections o).
  { induction Hr as
        [ w s Hnew
        | held [p w] r s' _ IH Hn
        | held [p w] c s' _ IH Hx
        | held [p w] c s' _ IH Hx
        | h1 c h2 [p w] s' _ IH Hret
        | held [p w] s' _ IH Hq Hp
        | held [p w] s' _ IH Hc ].
    - apply New_size in Hnew as (Hv & Ho & Hlen).
      cbn [length]. repeat split; [assumption .. | lia].
    - destruct IH as (Hv & Ho & Hlen). destruct r as [c b].
      apply Next_inv in Hn as [(_ & _ & _ & ->) | (_ & _ & _ & ->)];
        cbn [fst opts pool set_next] in *; auto.
    - destruct IH as (Hv & Ho & Hlen).
      apply ExNext_inv in Hx
        as [(Hb & _) | (_ & l1 & l2 & Hl & _ & ->)]; [discriminate |].
      cbn [fst opts pool set_next set_pool length] in *.
      rewrite Hl in Hlen. rewrite length_app in *. cbn [length] in Hlen.
      repeat split; [assumption .. | lia].
    - destruct IH as (Hv & Ho & Hlen).
      apply ExNext_inv in Hx
        as [(_ & _ & _ & ->) | (Hb & _)]; [| discriminate].
      auto.
    - destruct IH as (Hv & Ho & Hlen).
      rewrite Return_run in Hret. inversion Hret; subst s'.
      cbn [fst opts pool set_pool] in *.
      rewrite !length_app in *. cbn [length] in *.
      repeat split; [assumption .. | lia].
    - destruct IH as (Hv & Ho & Hlen).
      cbn [fst] in *. rewrite <- Ho in Hv.
      apply probe_size in Hp as (Ho' & Hlen'); [| exact Hv].
      rewrite Hq in * by reflexivity. cbn [length] in *.
      rewrite Ho in *.
      repeat split; [congruence .. | lia].
    - destruct IH as (Hv & Ho & Hlen).
      apply Close_size in Hc as (Ho' & Hlen').
      cbn [fst] in *.
      repeat split; [congruence .. | lia].
  }
  destruct Hinv as (_ & _ & Hlen). lia.
Qed.

(** ** Round-robin retrieval while the cursor fits a non-negative [int] *)

Lemma Next_many_in_range n :
  forall p w,
    pool p <> [] ->
    0 <= next p ->
    next p + Z.of_nat n <= int_max ->
    exists cs w',
      Next_many empty n (p, w)
      = Returned cs (set_next (next p + Z.of_nat n) p, w')
      /\ map Some cs
         = map (fun i => nth_error (pool p) (Z.to_nat i))
               (positions (next p) (Z.of_nat (length (pool p))) n).
Proof.
  induction n as [| n IH]; intros p w Hp H0 Hmax.
  - exists [], w. cbn. rewrite Z.add_0_r.
    destruct p; split; reflexivity.
  - destruct (Next_in_range p w Hp) as (c & Hn & Hnth); [lia |].
    destruct (IH (set_next (next p + 1) p)
                 (emits (retrieval_metric (opts p)) w))
      as (cs & w' & Hrun & Hcs); cbn [pool next set_next]; try lia;
      [exact Hp |].
    exists (c :: cs), w'. cbn [Next_many].
    step Hn. step Hrun. cbn [fst snd ret]. unfold ret. split.
    + do 2 f_equal. unfold set_next. cbn. f_equal. lia.
    + rewrite positions_step. cbn [map]. rewrite Hnth, Hcs.
      reflexivity.
Qed.

(** Within that range [Next] is round-robin: [2N] calls on a registry of
    [N >= 1] entries leave the registry as it was and return the entries
    at the positions of one round, twice over, and one round is a
    permutation of all [N] positions. *)
Lemma Next_round_robin p w :
  pool p <> [] ->
  0 <= next p ->
  next p + 2 * Z.of_nat (length (pool p)) <= int_max ->
  let N := length (pool p) in
  let round := positions (next p) (Z.of_nat N) N in
  exists cs s',
    Next_many empty (N + N) (p, w) = Returned cs s'
    /\ pool (fst s') = pool p
    /\ next (fst s') = next p + 2 * Z.of_nat N
    /\ map Some cs
       = map (fun i => nth_error (pool p) (Z.to_nat i)) (round ++ round)
    /\ Permutation round (map Z.of_nat (seq 0 N)).
Proof.
  intros Hp H0 Hmax N round.
  destruct (Next_many_in_range (N + N) p w Hp H0) as (cs & w' & Hrun & Hcs);
    [subst N; lia |].
  exists cs. eexists. split; [exact Hrun |].
  cbn [fst pool next set_next].
  split; [reflexivity |]. split; [lia |].
  split; [now rewrite Hcs; subst round N; rewrite positions_two_rounds |].
  apply positions_round_perm. subst N.
  destruct (pool p); [contradiction | cbn; lia].
Qed.

(** ** The closed signal along a history *)

Lemma probe_flags p w s' :
  validate (opts p) = None ->
  probe (p, w) = Returned tt s' ->
  closer (fst s') = closer p /\ closed (fst s') = false.
Proof.
  intros Hv Hrun.
  destruct (validate_ok_inv _ Hv) as ((f & Hf) & _ & _).
  destruct (closed p) eqn:Hc.
  - rewrite probe_closed in Hrun by exact Hc.
    inversion Hrun; subst. auto.
  - destruct (Z.eq_dec (Z.of_nat (length (pool p)))
                       (PoolOptions.Connections (opts p))) as [E | NE].
    + rewrite probe_fast in Hrun by assumption.
      inversion Hrun; subst. auto.
    + rewrite (probe_slow f) in Hrun by assumption.
      inversion Hrun; subst. auto.
Qed.

Lemma Close_flags p w s' :
  Close (p, w) = Returned tt s' -> closer (fst s') = true.
Proof.
  intros Hrun.
  destruct (closer p) eqn:Hc.
  - rewrite Close_done in Hrun by exact Hc. now inversion Hrun; subst.
  - destruct (closed p) eqn:Hs.
    + destruct (Close_blocked p w Hc Hs) as [s1 Hb]. congruence.
    + rewrite Close_first in Hrun by assumption. now inversion Hrun; subst.
Qed.

(** On every pool a history can reach, the closed signal is only pending
    once [Close] has run: the first [Close] never blocks on its send. *)
Lemma reach_signal_after_Close quiet o held s :
  reach empty quiet o held s ->
  validate o = None /\ opts (fst s) = o
  /\ (closed (fst s) = true -> closer (fst s) = true).
Proof.
  induction 1 as
      [ w s Hnew
      | held [p w] r s' _ IH Hn
      | held [p w] c s' _ IH Hx
      | held [p w] c s' _ IH Hx
      | h1 c h2 [p w] s' _ IH Hret
      | held [p w] s' _ IH Hq Hp
      | held [p w] s' _ IH Hc ].
  - pose proof (New_size _ _ _ Hnew) as (Hv & Ho & _).
    unfold New in Hnew. rewrite Hv in Hnew. inversion Hnew as [Hrun].
    rewrite connect_run in Hrun.
    apply probe_flags in Hrun as (_ & Hs); [| exact Hv].
    repeat split; [assumption .. | congruence].
  - destruct IH as (Hv & Ho & Hs). destruct r as [c b].
    apply Next_inv in Hn as [(_ & _ & _ & ->) | (_ & _ & _ & ->)];
      cbn [fst opts closed closer set_next] in *; auto.
  - destruct IH as (Hv & Ho & Hs).
    apply ExNext_inv in Hx
      as [(_ & _ & _ & ->) | (_ & l1 & l2 & _ & _ & ->)];
      cbn [fst opts closed closer set_next set_pool] in *; auto.
  - destruct IH as (Hv & Ho & Hs).
    apply ExNext_inv in Hx
      as [(_ & _ & _ & ->) | (_ & l1 & l2 & _ & _ & ->)];
      cbn [fst opts closed closer set_next set_pool] in *; auto.
  - destruct IH as (Hv & Ho & Hs).
    rewrite Return_run in Hret. inversion Hret; subst s'.
    cbn [fst opts closed closer set_pool] in *. auto.
  - destruct IH as (Hv & Ho & Hs). cbn [fst] in *.
    pose proof Hp as Hp'.
    rewrite <- Ho in Hv.
    apply probe_size in Hp as (Ho' & _); [| exact Hv].
    apply probe_flags in Hp' as (_ & Hs'); [| exact Hv].
    rewrite Ho in *.
    repeat split; [congruence .. |]. congruence.
  - destruct IH as (Hv & Ho & Hs). cbn [fst] in *.
    pose proof (Close_flags _ _ _ Hc) as Hc'.
    apply Close_size in Hc as (Ho' & _).
    repeat split; [congruence .. | auto].
Qed.

End PoolFacts.

(** * The claims on concrete pools *)

(** For the configuration of the test suite, the pool is full when [New]
    returns. *)
Lemma New_fills_pool_witness :
  exists s,
    New (opts_of first_failing 2) world0 = inr (Returned tt s)
    /\ Size s = Returned 2 s
    /\ opts (fst s) = opts_of first_failing 2.
Proof.
  apply (New_fills_pool (opts_of first_failing 2) first_failing world0).
  - reflexivity.
  - reflexivity.
  - intros k. eexists. reflexivity.
Defined.

Lemma New_fresh3 :
  exists w,
    New (opts_of first_failing 3) world0 = inr (Returned tt (pool_fresh3, w)).
Proof. eexists. vm_compute. reflexivity. Qed.

Lemma New_short :
  exists w,
    New (opts_of third_call_fails 3) world0
    = inr (Returned tt (pool_short, w)).
Proof. eexists. vm_compute. reflexivity. Qed.

Lemma New_full_unhealthy :
  exists w,
    New (opts_of first_failing 2) world0
    = inr (Returned tt (pool_full_unhealthy, w)).
Proof. eexists. vm_compute. reflexivity. Qed.

(** The state in which the cursor is the largest [int] is the one a caller
    reaches by calling [Next] that many times on a fresh pool. *)
Lemma late_cursor_reachable w :
  exists cs w',
    Next_many nil_conn (Z.to_nat int_max) (pool_fresh3, w)
    = Returned cs (pool_late_cursor, w').
Proof.
  assert (Hmax : 0 <= int_max) by (vm_compute; discriminate).
  destruct (Next_many_in_range nil_conn (Z.to_nat int_max) pool_fresh3 w)
    as (cs & w' & Hrun & _).
  - discriminate.
  - cbn [next pool_fresh3]. lia.
  - rewrite Z2Nat.id by exact Hmax. cbn [next pool_fresh3]. lia.
  - exists cs, w'. rewrite Hrun. rewrite Z2Nat.id by exact Hmax.
    reflexivity.
Qed.

(** C1.  The pass computes its replenishment deficit from the size it read
    before health eviction, not from the size after it.  Target count 3; the
    pool holds two connections, the first unhealthy (this is the state [New]
    returns when the third call of the factory fails).  The next pass evicts
    the unhealthy connection, which leaves one entry and a deficit of 2, but
    calls the factory once: the registry ends at size 2 although the call
    succeeded. *)
Theorem probe_deficit_ignores_eviction :
  exists w1 s2,
    New (opts_of third_call_fails 3) world0
    = inr (Returned tt (pool_short, w1))
    /\ probe (pool_short, w1) = Returned tt s2
    /\ survivors (opts pool_short) (pool pool_short) = [newDummy 1 false]
    /\ PoolOptions.Connections (opts pool_short)
       - Z.of_nat (length (survivors (opts pool_short) (pool pool_short)))
       = 2
    /\ connect_calls (snd s2) = (connect_calls w1 + 1)%nat
    /\ count is_connect (trace (snd s2))
       = (count is_connect (trace w1) + 1)%nat
    /\ pool (fst s2) = [newDummy 1 false; newDummy 3 false]
    /\ Size s2 = Returned 2 s2.
Proof.
  do 2 eexists.
  split; [vm_compute; reflexivity |].
  split; [vm_compute; reflexivity |].
  repeat split.
Qed.

(** C2 fails on a full registry.  Target count 2, a health predicate is
    configured and the registry holds an unhealthy connection; the pass
    takes the fast path, so the connection stays in the registry and its
    close operation is not called. *)
Lemma unhealthy_kept_when_full :
  exists w1 s2,
    New (opts_of first_failing 2) world0
    = inr (Returned tt (pool_full_unhealthy, w1))
    /\ PoolOptions.Healthy (opts pool_full_unhealthy) = Some dummy_Healthy
    /\ In (newDummy 0 true) (pool pool_full_unhealthy)
    /\ dummy_Healthy (newDummy 0 true) = false
    /\ probe (pool_full_unhealthy, w1) = Returned tt s2
    /\ In (newDummy 0 true) (pool (fst s2))
    /\ closes_of (trace (snd s2)) = [].
Proof.
  do 2 eexists.
  split; [vm_compute; reflexivity |].
  split; [reflexivity |].
  split; [now left |].
  split; [reflexivity |].
  split; [vm_compute; reflexivity |].
  split; [now left | reflexivity].
Qed.

Lemma probe_evicts_unless_full_witness :
  exists p' w' evs,
    probe (pool_short, world0) = Returned tt (p', w')
    /\ trace w' = trace world0 ++ evs
    /\ (Z.of_nat (length (pool pool_short))
        <> PoolOptions.Connections (opts pool_short) ->
        closes_of evs = filter (unhealthy dummy_Healthy) (pool pool_short)
        /\ exists added,
             pool p' = filter dummy_Healthy (pool pool_short) ++ added
             /\ (length added
                 <= Z.to_nat (PoolOptions.Connections (opts pool_short)
                              - Z.of_nat (length (pool pool_short))))%nat)
    /\ (Z.of_nat (length (pool pool_short))
        = PoolOptions.Connections (opts pool_short) ->
        closes_of evs = [] /\ pool p' = pool pool_short).
Proof.
  apply (probe_evicts_unless_full pool_short world0 dummy_Healthy);
    reflexivity.
Defined.

(** C3.  [Next] is not round-robin for every pool: once the cursor has
    reached the largest [int] (which [int_max] calls of [Next] on a fresh
    pool bring about), the next call increments the cursor, reports the
    retrieval and panics on a negative index instead of returning the
    connection at position [cursor mod 3 = 2]. *)
Theorem Next_panics_past_int_max (w : World dummyConn) :
  (exists cs w0,
      Next_many nil_conn (Z.to_nat int_max) (pool_fresh3, world0)
      = Returned cs (pool_late_cursor, w0))
  /\ bumped pool_late_cursor mod Z.of_nat (length (pool pool_late_cursor)) = 2
  /\ nth_error (pool pool_late_cursor) 2 = Some (newDummy 2 false)
  /\ Next nil_conn (pool_late_cursor, w)
     = Panicked (set_next (bumped pool_late_cursor) pool_late_cursor,
                 emits [EvRetrievalsInc] w).
Proof.
  split; [apply late_cursor_reachable |].
  split; [vm_compute; reflexivity |].
  split; [reflexivity |].
  rewrite Next_nonempty by discriminate.
  erewrite bind_Panicked; [reflexivity |].
  apply elem_at_out_of_range. left. vm_compute. reflexivity.
Qed.

(** C10.  The index is not always within bounds: with three connections and
    the cursor at the largest [int], the incremented cursor converts to the
    smallest [int], whose remainder modulo 3 is -2, and both retrieval
    operations panic on the registry access. *)
Theorem next_index_negative_past_int_max (w : World dummyConn) :
  0 <= next pool_late_cursor < uint64_mod
  /\ pool pool_late_cursor <> []
  /\ int_of_uint64 (bumped pool_late_cursor) = int_min
  /\ next_index pool_late_cursor = -2
  /\ ~ (0 <= next_index pool_late_cursor
        < Z.of_nat (length (pool pool_late_cursor)))
  /\ (exists s', Next nil_conn (pool_late_cursor, w) = Panicked s')
  /\ ExNext nil_conn (pool_late_cursor, w)
     = Panicked (set_next (bumped pool_late_cursor) pool_late_cursor, w).
Proof.
  split; [vm_compute; split; [discriminate | reflexivity] |].
  split; [discriminate |].
  split; [vm_compute; reflexivity |].
  split; [vm_compute; reflexivity |].
  split; [vm_compute; intros [Hle _]; now apply Hle |].
  split.
  - eexists. rewrite Next_nonempty by discriminate.
    erewrite bind_Panicked; [reflexivity |].
    apply elem_at_out_of_range. left. vm_compute. reflexivity.
  - rewrite ExNext_nonempty by discriminate.
    erewrite bind_Panicked; [reflexivity |].
    apply elem_at_out_of_range. left. vm_compute. reflexivity.
Qed.

Lemma ExNext_Return_roundtrip_witness :
  exists s',
    ExNext nil_conn (pool_fresh3, world0)
    = Returned (newDummy 1 false, true) s'
    /\ pool pool_fresh3 <> []
    /\ exists l1 l2,
        pool pool_fresh3 = l1 ++ newDummy 1 false :: l2
        /\ pool (fst s') = l1 ++ l2
        /\ Size s'
           = Returned (Z.of_nat (length (pool pool_fresh3)) - 1) s'
        /\ exists s'',
            Return (newDummy 1 false) s' = Returned tt s''
            /\ pool (fst s'') = (l1 ++ l2) ++ [newDummy 1 false]
            /\ Size s''
               = Returned (Z.of_nat (length (pool pool_fresh3))) s''
            /\ In (newDummy 1 false) (pool (fst s'')).
Proof.
  eexists. split; [vm_compute; reflexivity |].
  apply (proj1 (proj2 (ExNext_Return_roundtrip nil_conn pool_fresh3 world0))).
  vm_compute. reflexivity.
Defined.

Lemma Close_idempotent_witness :
  exists p' w',
    Close (pool_fresh3, world0) = Returned tt (p', w')
    /\ Size (p', w') = Returned 0 (p', w')
    /\ pool p' = []
    /\ closer p' = true
    /\ trace w'
       = trace world0
           ++ EvDebugf (log pool_fresh3) "closing connection pool"
                :: flat_map (close_events (log pool_fresh3))
                            (pool pool_fresh3)
    /\ closes_of (trace w') = closes_of (trace world0) ++ pool pool_fresh3
    /\ connect_calls w' = connect_calls world0.
Proof.
  apply (proj2 (Close_idempotent pool_fresh3 world0 2)); reflexivity.
Defined.

Lemma validate_distinct_errors_witness :
  validate (PoolOptions.mk (T := dummyConn) None (Some dummy_Healthy) 1 1
                           None None)
  = Some ErrNoConnectFunc
  /\ validate (opts_of always_healthy 0) = Some ErrInvalidConnectionCount
  /\ validate (PoolOptions.mk (Some always_healthy) None 1 0 None None)
     = Some ErrInvalidProbeInterval
  /\ validate (PoolOptions.mk (Some always_healthy) None 1 1 None None)
     = None.
Proof.
  split; [| split; [| split]].
  - destruct (validate_distinct_errors
                (PoolOptions.mk None (Some dummy_Healthy) 1 1 None None)
                world0) as (Hmissing & _).
    apply Hmissing. reflexivity.
  - destruct (validate_distinct_errors (opts_of always_healthy 0) world0)
      as (_ & Hcount & _).
    apply Hcount; [discriminate | cbn; lia].
  - destruct (validate_distinct_errors
                (PoolOptions.mk (Some always_healthy) None 1 0 None None)
                world0) as (_ & _ & Hinterval & _).
    apply Hinterval; [discriminate | cbn; lia | cbn; lia].
  - destruct (validate_distinct_errors
                (PoolOptions.mk (Some always_healthy) None 1 1 None None)
                world0) as (_ & _ & _ & Hvalid & _).
    apply Hvalid; [discriminate | cbn; lia | cbn; lia].
Defined.

(** C8 fails on an empty registry.  The factory never succeeds, so [New]
    returns an empty pool; a retrievals counter is configured; [Next] and
    [ExNext] return the absence result and the counter is not incremented. *)
Lemma retrieval_on_empty_pool_not_counted :
  exists s1 m,
    New (opts_of always_fails 1) world0 = inr (Returned tt s1)
    /\ PoolOptions.Metrics (opts (fst s1)) = Some m
    /\ PoolMetrics.Retrievals m = true
    /\ (exists s2,
           Next nil_conn s1 = Returned (nil_conn, false) s2
           /\ retrievals (snd s2) <> S (retrievals (snd s1)))
    /\ (exists s2,
           ExNext nil_conn s1 = Returned (nil_conn, false) s2
           /\ retrievals (snd s2) <> S (retrievals (snd s1))).
Proof.
  do 2 eexists.
  split; [vm_compute; reflexivity |].
  split; [reflexivity |].
  split; [reflexivity |].
  split; eexists; (split; [vm_compute; reflexivity | vm_compute; discriminate]).
Qed.

Lemma retrievals_counted_on_success_witness :
  exists c s',
    Next nil_conn (pool_fresh3, world0) = Returned (c, true) s'
    /\ retrievals (snd s') = S (retrievals world0).
Proof.
  do 2 eexists. split; [vm_compute; reflexivity |].
  eapply (proj1 (retrievals_counted_on_success
                   nil_conn pool_fresh3 world0 all_metrics
                   eq_refl eq_refl)).
  vm_compute. reflexivity.
Defined.

(** C9 fails when a pass runs while a connection is checked out.  Target
    count 2: [New] fills the registry, [ExNext] takes a connection out, the
    pass replaces it, and [Return] of the connection makes the registry hold
    three. *)
Lemma registry_outgrows_target :
  exists held s,
    reach nil_conn false (opts_of always_healthy 2) held s
    /\ held = []
    /\ PoolOptions.Connections (opts_of always_healthy 2)
       < Z.of_nat (length (pool (fst s))).
Proof.
  do 2 eexists. split; [| split].
  - eapply (reach_Return nil_conn false _ [] (newDummy 1 false) []).
    + eapply reach_probe.
      * eapply reach_ExNext.
        -- eapply (reach_New nil_conn false _ world0).
           vm_compute. reflexivity.
        -- vm_compute. reflexivity.
      * discriminate.
      * vm_compute. reflexivity.
    + vm_compute. reflexivity.
  - reflexivity.
  - vm_compute. reflexivity.
Qed.

Lemma registry_bounded_when_passes_are_quiet_witness :
  exists held s,
    reach nil_conn true (opts_of always_healthy 2) held s
    /\ held = [newDummy 1 false]
    /\ 0 <= Z.of_nat (length (pool (fst s)))
       <= PoolOptions.Connections (opts_of always_healthy 2)
    /\ Z.of_nat (length (pool (fst s))) + Z.of_nat (length held)
       <= PoolOptions.Connections (opts_of always_healthy 2).
Proof.
  assert (Hr : exists s,
             reach nil_conn true (opts_of always_healthy 2)
                   [newDummy 1 false] s).
  { eexists. eapply reach_ExNext.
    - eapply reach_probe.
      + eapply (reach_New nil_conn true _ world0). vm_compute. reflexivity.
      + reflexivity.
      + vm_compute. reflexivity.
    - vm_compute. reflexivity. }
  destruct Hr as [s Hr].
  exists [newDummy 1 false], s.
  split; [exact Hr |]. split; [reflexivity |].
  exact (registry_bounded_when_passes_are_quiet nil_conn _ _ _ Hr).
Defined.

(** * Further properties of the code *)

(** [run lem]: as [step], for an equation stated outside the section. *)
Tactic Notation "run" uconstr(lem) :=
  erewrite bind_Returned by (eapply lem; eauto).

Section MoreFacts.

Context {T : Type} `{Connection T}.
Variable empty : T.

Implicit Types (p : Pool T) (w : World T) (s : St T) (c : T).
Implicit Types (l rest kept : list T) (f : nat -> T + error).
Implicit Types (o : PoolOptions.t T) (lg : Logger).

(** ** Counting events *)

Lemma count_app (g : Event T -> bool) (a b : list (Event T)) :
  count g (a ++ b) = (count g a + count g b)%nat.
Proof. unfold count. now rewrite filter_app, length_app. Qed.

Lemma count_errors_metric (g : Event T -> bool) o :
  g EvConnectionErrorsInc = false -> count g (errors_metric o) = O.
Proof.
  intros Hg. unfold errors_metric, count.
  destruct (PoolOptions.Metrics o) as [m|];
    [destruct (PoolMetrics.ConnectionErrors m) |]; cbn; now rewrite ?Hg.
Qed.

Lemma count_gauge_metric (g : Event T -> bool) o size :
  g (EvGaugeSet size) = false -> count g (gauge_metric o size) = O.
Proof.
  intros Hg. unfold gauge_metric, count.
  destruct (PoolOptions.Metrics o) as [m|];
    [destruct (PoolMetrics.Connections m) |]; cbn; now rewrite ?Hg.
Qed.

Lemma count_close_events (g : Event T -> bool) lg c :
  g (EvClose c) = false ->
  g (EvErrorf lg "failed to close connection: %v") = false ->
  count g (close_events lg c) = O.
Proof.
  intros H1 H2. unfold close_events, count.
  destruct (conn_Close c); cbn; now rewrite H1, ?H2.
Qed.

Lemma error_incs_of_errors_metric o m :
  PoolOptions.Metrics o = Some m ->
  PoolMetrics.ConnectionErrors m = true ->
  errors_metric o = [EvConnectionErrorsInc].
Proof. unfold errors_metric. now intros -> ->. Qed.

(** Evictions neither call the factory nor log a failed connect. *)
Lemma count_evictions_none (g : Event T -> bool) lg o l :
  (forall c, g (EvClose c) = false) ->
  (forall format, g (EvErrorf lg format) = false) ->
  g EvConnectionErrorsInc = false ->
  count g (flat_map (evict_events lg o) l) = O.
Proof.
  intros Hc He Hi. induction l as [| c l IH]; [reflexivity |].
  cbn [flat_map]. unfold evict_events at 1.
  rewrite !count_app, IH, count_close_events, count_errors_metric by auto.
  unfold count. cbn. now rewrite He.
Qed.

Lemma count_connects_evictions lg o l :
  count is_connect (flat_map (evict_events lg o) l) = O.
Proof. now apply count_evictions_none. Qed.

Lemma count_connect_failures_evictions lg o l :
  count is_connect_failure (flat_map (evict_events lg o) l) = O.
Proof.
  induction l as [| c l IH]; [reflexivity |].
  cbn [flat_map]. unfold evict_events at 1.
  rewrite !count_app, IH, count_close_events, count_errors_metric
    by reflexivity.
  reflexivity.
Qed.

Lemma count_error_incs_evictions lg o m l :
  PoolOptions.Metrics o = Some m ->
  PoolMetrics.ConnectionErrors m = true ->
  count is_error_inc (flat_map (evict_events lg o) l) = length l.
Proof.
  intros Hm Hc. induction l as [| c l IH]; [reflexivity |].
  cbn [flat_map length]. unfold evict_events at 1.
  rewrite !count_app, IH, count_close_events by reflexivity.
  rewrite (error_incs_of_errors_metric o m) by assumption.
  reflexivity.
Qed.

Lemma count_connects_connect_events lg o f k n :
  count is_connect (connect_events lg o f k n) = n.
Proof.
  revert k. induction n as [| n IH]; intros k; [reflexivity |].
  cbn [connect_events]. rewrite count_app, IH.
  destruct (f k); [reflexivity |].
  change (EvConnect k :: EvErrorf lg "failed to create connection: %v"
            :: errors_metric o)
    with ([EvConnect (T := T) k;
           EvErrorf lg "failed to create connection: %v"]
            ++ errors_metric o).
  now rewrite count_app, count_errors_metric.
Qed.

Lemma count_connect_failures_connect_events lg o f k n :
  count is_connect_failure (connect_events lg o f k n)
  = connect_failures f k n.
Proof.
  revert k. induction n as [| n IH]; intros k; [reflexivity |].
  cbn [connect_events connect_failures]. rewrite count_app, IH.
  destruct (f k); [reflexivity |].
  change (EvConnect k :: EvErrorf lg "failed to create connection: %v"
            :: errors_metric o)
    with ([EvConnect (T := T) k;
           EvErrorf lg "failed to create connection: %v"]
            ++ errors_metric o).
  now rewrite count_app, count_errors_metric.
Qed.

Lemma count_error_incs_connect_events lg o m f k n :
  PoolOptions.Metrics o = Some m ->
  PoolMetrics.ConnectionErrors m = true ->
  count is_error_inc (connect_events lg o f k n) = connect_failures f k n.
Proof.
  intros Hm Hc. revert k. induction n as [| n IH]; intros k; [reflexivity |].
  cbn [connect_events connect_failures]. rewrite count_app, IH.
  destruct (f k); [reflexivity |].
  rewrite (error_incs_of_errors_metric o m) by assumption. reflexivity.
Qed.

Lemma connect_results_failures f k n :
  (length (connect_results f k n) + connect_failures f k n)%nat = n.
Proof.
  revert k. induction n as [| n IH]; intros k; [reflexivity |].
  cbn [connect_results connect_failures].
  destruct (f k); cbn [length]; specialize (IH (S k)); lia.
Qed.

Lemma evicted_survivors_length o l :
  (length (survivors o l) + length (evicted o l))%nat = length l.
Proof.
  unfold survivors, evicted, unhealthy.
  destruct (PoolOptions.Healthy o) as [h |]; [| cbn; lia].
  induction l as [| c l IH]; [reflexivity |].
  cbn [filter]. destruct (h c); cbn [negb length]; lia.
Qed.

(** ** A pass always comes back *)

(** X1.  A reconciliation pass on a pool whose configuration is valid
    always returns: the index arithmetic of the health loop never leaves the
    registry, so the pass neither panics nor blocks.  It leaves the options,
    the logger, the cursor and the once-guard of [Close] as they were, only
    adds to the trace, and leaves no closed signal pending. *)
Theorem probe_always_returns p w :
  validate (opts p) = None ->
  exists p' w' evs,
    probe (p, w) = Returned tt (p', w')
    /\ opts p' = opts p
    /\ log p' = log p
    /\ next p' = next p
    /\ closer p' = closer p
    /\ closed p' = false
    /\ trace w' = trace w ++ evs
    /\ (connect_calls w <= connect_calls w')%nat.
Proof.
  intros Hv.
  destruct (validate_ok_inv _ Hv) as ((f & Hf) & _ & _).
  destruct (closed p) eqn:Hc.
  - do 3 eexists. split; [apply probe_closed; exact Hc |].
    cbn. repeat split. lia.
  - destruct (Z.eq_dec (Z.of_nat (length (pool p)))
                       (PoolOptions.Connections (opts p))) as [E | NE].
    + do 3 eexists. split; [apply probe_fast; assumption |].
      cbn. repeat split; [assumption | lia].
    + do 3 eexists. split; [apply (probe_slow f); assumption |].
      cbn. repeat split; [assumption | lia].
Qed.

(** ** What a pass costs and reports *)

(** X2.  A pass on an open pool that is not at its target count calls the
    factory exactly [max 0 (Connections - size)] times, [size] being the
    registry size at the start of the pass.  Every failed call is logged
    once and the pass goes on; the registry ends with the entries that
    survive eviction followed by one new entry per successful call; and
    with the error counter configured, the counter goes up once per evicted
    connection and once per failed call. *)
Theorem probe_accounting p w f :
  closed p = false ->
  PoolOptions.Connect (opts p) = Some f ->
  Z.of_nat (length (pool p)) <> PoolOptions.Connections (opts p) ->
  let n := Z.to_nat (PoolOptions.Connections (opts p)
                     - Z.of_nat (length (pool p))) in
  let failed := connect_failures f (connect_calls w) n in
  exists p' w' evs,
    probe (p, w) = Returned tt (p', w')
    /\ trace w' = trace w ++ evs
    /\ connect_calls w' = (connect_calls w + n)%nat
    /\ count is_connect evs = n
    /\ count is_connect_failure evs = failed
    /\ pool p'
       = survivors (opts p) (pool p)
           ++ connect_results f (connect_calls w) n
    /\ (length (pool p') + length (evicted (opts p) (pool p)) + failed)%nat
       = (length (pool p) + n)%nat
    /\ (forall m,
          PoolOptions.Metrics (opts p) = Some m ->
          PoolMetrics.ConnectionErrors m = true ->
          count is_error_inc evs
          = (length (evicted (opts p) (pool p)) + failed)%nat).
Proof.
  intros Hc Hf Hlen n failed.
  do 3 eexists. split; [apply (probe_slow f); assumption |].
  cbn [connect_calls trace pool set_pool].
  fold n. unfold replenish_count. fold n.
  split; [reflexivity |]. split; [reflexivity |].
  unfold pass_events, replenish_count. fold n.
  split.
  { rewrite !count_app, count_gauge_metric, count_connects_evictions,
      count_connects_connect_events by reflexivity.
    reflexivity. }
  split.
  { rewrite !count_app, count_gauge_metric,
      count_connect_failures_evictions,
      count_connect_failures_connect_events by reflexivity.
    reflexivity. }
  split; [reflexivity |].
  split.
  { rewrite length_app.
    pose proof (evicted_survivors_length (opts p) (pool p)).
    pose proof (connect_results_failures f (connect_calls w) n).
    subst failed. lia. }
  intros m Hm Hcm.
  rewrite !count_app, count_gauge_metric by reflexivity.
  rewrite (count_error_incs_evictions _ _ m),
    (count_error_incs_connect_events _ _ m) by assumption.
  reflexivity.
Qed.

(** ** Passes and the health predicate *)

Lemma survivors_filter o l : survivors o l = filter (passes_health o) l.
Proof.
  unfold survivors, passes_health.
  destruct (PoolOptions.Healthy o) as [h |]; [reflexivity |].
  induction l as [| c l IH]; [reflexivity |]. cbn. now rewrite <- IH.
Qed.

Lemma filter_all_true (g : T -> bool) l :
  (forall c, In c l -> g c = true) -> filter g l = l.
Proof.
  induction l as [| c l IH]; intros Hall; [reflexivity |].
  cbn. rewrite (Hall c) by now left.
  f_equal. apply IH. intros c' Hin. apply Hall. now right.
Qed.

Lemma survivors_all_healthy o l :
  (forall c, In c l -> passes_health o c = true) -> survivors o l = l.
Proof. intros Hall. rewrite survivors_filter. now apply filter_all_true. Qed.

Lemma survivors_passes o l c :
  In c (survivors o l) -> passes_health o c = true.
Proof. rewrite survivors_filter. intros Hin. now apply filter_In in Hin. Qed.

Lemma evicted_all_healthy o l :
  (forall c, In c l -> passes_health o c = true) -> evicted o l = [].
Proof.
  intros Hall.
  pose proof (evicted_survivors_length o l) as Hlen.
  rewrite survivors_all_healthy in Hlen by exact Hall.
  destruct (evicted o l); [reflexivity | cbn in Hlen; lia].
Qed.

Lemma connect_results_healthy o f k n c :
  (forall j, exists c', f j = inl c' /\ passes_health o c' = true) ->
  In c (connect_results f k n) -> passes_health o c = true.
Proof.
  intros Hok. revert k. induction n as [| n IH]; intros k; cbn; [tauto |].
  destruct (Hok k) as (c' & -> & Hc'). cbn. intros [<- | Hin]; eauto.
Qed.

(** X3.  Without a health predicate a pass never closes a connection and
    never removes one: the registry it leaves starts with the registry it
    found. *)
Theorem probe_without_health_predicate p w :
  validate (opts p) = None ->
  PoolOptions.Healthy (opts p) = None ->
  exists p' w' evs added,
    probe (p, w) = Returned tt (p', w')
    /\ trace w' = trace w ++ evs
    /\ closes_of evs = []
    /\ pool p' = pool p ++ added.
Proof.
  intros Hv Hh.
  destruct (validate_ok_inv _ Hv) as ((f & Hf) & _ & _).
  destruct (closed p) eqn:Hc.
  - exists (set_closed false p). do 2 eexists. exists [].
    split; [apply probe_closed; exact Hc |].
    split; [reflexivity |]. split; [reflexivity |].
    cbn. now rewrite app_nil_r.
  - destruct (Z.eq_dec (Z.of_nat (length (pool p)))
                       (PoolOptions.Connections (opts p))) as [E | NE].
    + exists p. do 2 eexists. exists [].
      split; [apply probe_fast; assumption |].
      split; [reflexivity |].
      split; [| now rewrite app_nil_r].
      now rewrite closes_of_app, closes_of_gauge_metric.
    + do 4 eexists. split; [apply (probe_slow f); assumption |].
      cbn [trace pool set_pool]. split; [reflexivity |].
      rewrite closes_of_pass_events. unfold evicted, survivors. rewrite Hh.
      auto.
Qed.

(** X4.  A registry above its target count is never brought back to it: a
    pass on such a pool does not call the factory and removes nothing but
    the connections that fail the health check, so when all of them pass
    the registry is left exactly as it was. *)
Theorem probe_over_full p w :
  validate (opts p) = None ->
  closed p = false ->
  PoolOptions.Connections (opts p) < Z.of_nat (length (pool p)) ->
  exists p' w',
    probe (p, w) = Returned tt (p', w')
    /\ connect_calls w' = connect_calls w
    /\ pool p' = survivors (opts p) (pool p)
    /\ ((forall c, In c (pool p) -> passes_health (opts p) c = true) ->
        pool p' = pool p
        /\ PoolOptions.Connections (opts p) < Z.of_nat (length (pool p'))).
Proof.
  intros Hv Hc Hlen.
  destruct (validate_ok_inv _ Hv) as ((f & Hf) & _ & _).
  do 2 eexists. split; [apply (probe_slow f); [assumption | lia | assumption] |].
  cbn [connect_calls pool set_pool]. unfold replenish_count.
  replace (Z.to_nat (PoolOptions.Connections (opts p)
                     - Z.of_nat (length (pool p)))) with O by lia.
  cbn [connect_results]. rewrite app_nil_r, Nat.add_0_r.
  split; [reflexivity |]. split; [reflexivity |].
  intros Hall. rewrite survivors_all_healthy by exact Hall. auto.
Qed.

(** X5.  Two passes are enough: on an open pool whose registry does not
    exceed the target count, with a factory that always succeeds and only
    makes connections that pass the health check, the registry is at the
    target count after the second pass (the first one may stop short of it
    by the number of connections it evicted).  Unless the registry was at
    the target count from the start, every connection then passes the
    health check. *)
Theorem probe_twice_converges p w f :
  validate (opts p) = None ->
  closed p = false ->
  PoolOptions.Connect (opts p) = Some f ->
  (forall k, exists c, f k = inl c /\ passes_health (opts p) c = true) ->
  Z.of_nat (length (pool p)) <= PoolOptions.Connections (opts p) ->
  exists s1 s2,
    probe (p, w) = Returned tt s1
    /\ probe s1 = Returned tt s2
    /\ Size s2 = Returned (PoolOptions.Connections (opts p)) s2
    /\ (Z.of_nat (length (pool p)) <> PoolOptions.Connections (opts p) ->
        forall c, In c (pool (fst s2)) -> passes_health (opts p) c = true).
Proof.
  intros Hv Hc Hf Hok Hle.
  assert (Hok' : forall k, exists c, f k = inl c).
  { intros k. destruct (Hok k) as (c & Hk & _). eauto. }
  destruct (Z.eq_dec (Z.of_nat (length (pool p)))
                     (PoolOptions.Connections (opts p))) as [E | NE].
  - do 2 eexists. split; [apply probe_fast; assumption |].
    split; [apply probe_fast; assumption |].
    split; [rewrite Size_run; now rewrite E | contradiction].
  - rewrite (probe_slow f) by assumption.
    set (res1 := connect_results f (connect_calls w)
                   (replenish_count (opts p) (pool p))).
    set (p1 := set_pool (survivors (opts p) (pool p) ++ res1) p).
    set (w1 := mkWorld _ _).
    assert (Hall1 : forall c, In c (pool p1) ->
                              passes_health (opts p) c = true).
    { intros c Hin. cbn [p1 pool set_pool] in Hin.
      apply in_app_or in Hin as [Hin | Hin].
      - eapply survivors_passes; exact Hin.
      - eapply connect_results_healthy; [exact Hok | exact Hin]. }
    assert (Hlen1 : Z.of_nat (length (pool p1))
                    <= PoolOptions.Connections (opts p)).
    { cbn [p1 pool set_pool]. rewrite length_app.
      pose proof (survivors_length (opts p) (pool p)).
      pose proof (connect_results_length_le f (connect_calls w)
                    (replenish_count (opts p) (pool p))).
      fold res1 in H1. unfold replenish_count in H1. lia. }
    destruct (Z.eq_dec (Z.of_nat (length (pool p1)))
                       (PoolOptions.Connections (opts p))) as [E1 | NE1].
    + exists (p1, w1). eexists. split; [reflexivity |].
      split; [apply probe_fast; [exact Hc | exact E1] |].
      split; [rewrite Size_run; cbn [fst]; now rewrite E1 |].
      intros _. exact Hall1.
    + exists (p1, w1). eexists. split; [reflexivity |].
      split; [apply (probe_slow f); [exact Hc | exact NE1 | exact Hf] |].
      cbn [fst]. split.
      * rewrite Size_run. cbn [pool set_pool opts p1]. f_equal.
        change (opts p1) with (opts p).
        rewrite survivors_all_healthy by exact Hall1.
        rewrite length_app, connect_results_all_ok by exact Hok'.
        cbn [p1 pool set_pool] in Hlen1.
        rewrite length_app in *. unfold replenish_count.
        rewrite length_app. lia.
      * intros _ c Hin. cbn [pool set_pool] in Hin.
        change (opts p1) with (opts p) in Hin.
        apply in_app_or in Hin as [Hin | Hin].
        -- apply Hall1. eapply incl_filter.
           rewrite <- survivors_filter. exact Hin.
        -- eapply connect_results_healthy; [exact Hok | exact Hin].
Qed.

(** ** After [Close] *)

Lemma closes_of_retrieval_metric o : closes_of (retrieval_metric o) = [].
Proof.
  unfold retrieval_metric.
  destruct (PoolOptions.Metrics o) as [m|];
    [destruct (PoolMetrics.Retrievals m) |]; reflexivity.
Qed.

Lemma survivors_nil o : survivors o [] = [].
Proof. unfold survivors. now destruct (PoolOptions.Healthy o). Qed.


(** X7.  A connection that is checked out when [Close] runs is not closed
    by it, and [Return] still accepts it afterwards: it then sits in the
    registry of the closed pool, where no later [Close] reaches it. *)
Theorem Close_skips_checked_out p w c s1 :
  closer p = false ->
  closed p = false ->
  ExNext empty (p, w) = Returned (c, true) s1 ->
  exists l1 l2 s2 s3,
    pool p = l1 ++ c :: l2
    /\ Close s1 = Returned tt s2
    /\ closes_of (trace (snd s2)) = closes_of (trace w) ++ l1 ++ l2
    /\ Return c s2 = Returned tt s3
    /\ pool (fst s3) = [c]
    /\ forall n, Close_many n s3 = Returned tt s3.
Proof.
  intros Hcl Hs Hex.
  apply ExNext_inv in Hex as [(Hb & _) | (_ & l1 & l2 & Hl & _ & ->)];
    [discriminate |].
  exists l1, l2.
  rewrite Close_first by assumption.
  do 2 eexists. split; [exact Hl |]. split; [reflexivity |].
  cbn [snd fst]. split; [| split; [reflexivity |]].
  - unfold emits. cbn [trace pool set_pool set_next log].
    rewrite !closes_of_app, closes_of_retrieval_metric, app_nil_r.
    change (EvDebugf (log p) "closing connection pool" :: ?x)
      with ([EvDebugf (T := T) (log p) "closing connection pool"] ++ x).
    rewrite closes_of_app, closes_of_drain. reflexivity.
  - split; [reflexivity |].
    intros n. apply Close_many_done. reflexivity.
Qed.

(** ** The gauge *)

Lemma gauge_sets_app (a b : list (Event T)) :
  gauge_sets (a ++ b) = gauge_sets a ++ gauge_sets b.
Proof. apply flat_map_app. Qed.

Lemma gauge_sets_errors_metric o : gauge_sets (errors_metric o) = [].
Proof.
  unfold errors_metric.
  destruct (PoolOptions.Metrics o) as [m|];
    [destruct (PoolMetrics.ConnectionErrors m) |]; reflexivity.
Qed.

Lemma gauge_sets_evictions lg o l :
  gauge_sets (flat_map (evict_events lg o) l) = [].
Proof.
  induction l as [| c l IH]; [reflexivity |].
  cbn [flat_map]. unfold evict_events at 1, close_events.
  rewrite !gauge_sets_app, IH, gauge_sets_errors_metric.
  now destruct (conn_Close c).
Qed.

Lemma gauge_sets_connect_events lg o f k n :
  gauge_sets (connect_events lg o f k n) = [].
Proof.
  revert k. induction n as [| n IH]; intros k; [reflexivity |].
  cbn [connect_events]. rewrite gauge_sets_app, IH, app_nil_r.
  destruct (f k); [reflexivity |]. cbn. apply gauge_sets_errors_metric.
Qed.

(** X8.  With the connections gauge configured, a pass on an open pool
    sets the gauge exactly once, to the registry size it read at its start:
    what the pass then evicts or adds does not reach the gauge before the
    next pass. *)
Theorem probe_gauge_is_size_at_start p w m :
  validate (opts p) = None ->
  closed p = false ->
  PoolOptions.Metrics (opts p) = Some m ->
  PoolMetrics.Connections m = true ->
  exists p' w' evs,
    probe (p, w) = Returned tt (p', w')
    /\ trace w' = trace w ++ evs
    /\ gauge_sets evs = [Z.of_nat (length (pool p))].
Proof.
  intros Hv Hc Hm Hg.
  destruct (validate_ok_inv _ Hv) as ((f & Hf) & _ & _).
  assert (Hgm : forall z, gauge_metric (opts p) z = [EvGaugeSet z]).
  { intros z. unfold gauge_metric. now rewrite Hm, Hg. }
  destruct (Z.eq_dec (Z.of_nat (length (pool p)))
                     (PoolOptions.Connections (opts p))) as [E | NE].
  - do 3 eexists. split; [apply probe_fast; assumption |].
    split; [reflexivity |]. now rewrite Hgm.
  - do 3 eexists. split; [apply (probe_slow f); assumption |].
    split; [reflexivity |]. unfold pass_events.
    rewrite !gauge_sets_app, Hgm, gauge_sets_evictions,
      gauge_sets_connect_events.
    reflexivity.
Qed.

(** ** When retrieval panics *)

Lemma next_index_upper p :
  pool p <> [] -> next_index p < Z.of_nat (length (pool p)).
Proof.
  intros Hp. unfold next_index, go_rem.
  assert (Hlen : 0 < Z.of_nat (length (pool p))).
  { destruct (pool p); [contradiction | cbn [length]; lia]. }
  pose proof (Z.rem_bound_abs (int_of_uint64 (bumped p))
                (Z.of_nat (length (pool p)))) as Hb.
  lia.
Qed.

Lemma ExNext_index_ok p w :
  pool p <> [] ->
  0 <= next_index p ->
  exists c s',
    ExNext empty (p, w) = Returned (c, true) s'
    /\ nth_error (pool p) (Z.to_nat (next_index p)) = Some c.
Proof.
  intros Hp H0.
  pose proof (next_index_upper p Hp) as Hup.
  rewrite ExNext_nonempty by exact Hp.
  destruct (elem_at_in_range (pool p) (next_index p)
              (set_next (bumped p) p, w)) as (c & He & Hnth); [lia |].
  pose proof Hnth as Hnth'.
  apply nth_error_split in Hnth as (l1 & l2 & Hl & Hlen).
  step He. run reportRetrieval_run.
  replace (next_index p) with (Z.of_nat (length l1)) by lia.
  erewrite bind_Returned
    by (apply (removeFromPool_app l1 c l2); exact Hl).
  unfold ret. replace (Z.to_nat (Z.of_nat (length l1)))
    with (Z.to_nat (next_index p)) by lia. eauto.
Qed.

Lemma Next_index_ok p w :
  pool p <> [] ->
  0 <= next_index p ->
  exists c s',
    Next empty (p, w) = Returned (c, true) s'
    /\ nth_error (pool p) (Z.to_nat (next_index p)) = Some c.
Proof.
  intros Hp H0.
  pose proof (next_index_upper p Hp) as Hup.
  rewrite Next_nonempty by exact Hp.
  destruct (elem_at_in_range (pool p) (next_index p)
              (set_next (bumped p) p,
               emits (retrieval_metric (opts p)) w))
    as (c & He & Hnth); [lia |].
  step He. unfold ret. eauto.
Qed.

(** X9.  On a non-empty registry the index [int(n) % len] is never too
    large, so [Next] and [ExNext] fail in one way only: both return a
    connection when the index is not negative and both panic when it is.
    The index is never negative while the incremented cursor fits a
    non-negative [int], nor when the registry holds a single connection, nor
    when the cursor wraps around from 2^64 - 1 to 0. *)
Theorem retrieval_panics_iff_index_negative p w :
  pool p <> [] ->
  next_index p < Z.of_nat (length (pool p))
  /\ (0 <= next_index p ->
      (exists c s', Next empty (p, w) = Returned (c, true) s')
      /\ (exists c s', ExNext empty (p, w) = Returned (c, true) s'))
  /\ (next_index p < 0 ->
      (exists s', Next empty (p, w) = Panicked s')
      /\ (exists s', ExNext empty (p, w) = Panicked s'))
  /\ (0 <= next p < int_max -> 0 <= next_index p)
  /\ (length (pool p) = 1%nat -> next_index p = 0)
  /\ (next p = uint64_mod - 1 -> next_index p = 0).
Proof.
  intros Hp.
  split; [now apply next_index_upper |].
  split; [| split; [| split; [| split]]].
  - intros H0. split.
    + destruct (Next_index_ok p w Hp H0) as (c & s' & Hn & _). eauto.
    + destruct (ExNext_index_ok p w Hp H0) as (c & s' & Hn & _). eauto.
  - intros Hneg. split.
    + rewrite Next_nonempty by exact Hp. eexists.
      erewrite bind_Panicked; [reflexivity |].
      apply elem_at_out_of_range. now left.
    + rewrite ExNext_nonempty by exact Hp. eexists.
      erewrite bind_Panicked; [reflexivity |].
      apply elem_at_out_of_range. now left.
  - intros Hn. now destruct (next_index_in_range p Hp Hn) as (_ & _ & Hi).
  - intros H1. unfold next_index, go_rem. rewrite H1. apply Z.rem_1_r.
  - intros Hw. unfold next_index, bumped, go_rem. rewrite Hw.
    replace (uint64_mod - 1 + 1) with uint64_mod by lia.
    rewrite Z.mod_same by (vm_compute; discriminate).
    change (int_of_uint64 0) with 0. apply Z.rem_0_l.
    destruct (pool p); [contradiction | cbn [length]; lia].
Qed.

(** X10.  [Next] and [ExNext] choose alike: from the same state, [ExNext]
    hands out a connection exactly when [Next] returns one, and it is the
    same connection. *)
Theorem ExNext_takes_what_Next_returns p w c :
  (exists s', Next empty (p, w) = Returned (c, true) s')
  <-> (exists s', ExNext empty (p, w) = Returned (c, true) s').
Proof.
  split; intros [s' Hrun].
  - apply Next_inv in Hrun as [(Hb & _) | (_ & H0 & Hnth & _)];
      [discriminate |].
    assert (Hp : pool p <> []).
    { intros E. rewrite E in Hnth. now destruct (Z.to_nat (next_index p)). }
    destruct (ExNext_index_ok p w Hp H0) as (c' & s'' & Hx & Hnth').
    assert (c' = c) by congruence. subst c'. eauto.
  - apply ExNext_inv in Hrun as [(Hb & _) | (_ & l1 & l2 & Hl & Hi & _)];
      [discriminate |].
    assert (Hp : pool p <> []) by (rewrite Hl; now destruct l1).
    destruct (Next_index_ok p w Hp) as (c' & s'' & Hn & Hnth); [lia |].
    rewrite <- Hi, Nat2Z.id, Hl, nth_error_app2, Nat.sub_diag in Hnth
      by lia.
    cbn in Hnth. assert (c' = c) by congruence. subst c'. eauto.
Qed.

(** ** Construction, whatever the factory does *)

(** X11.  A valid configuration always yields a pool: [New] calls the
    factory exactly [Connections] times, whatever it answers, and returns
    a pool, never an error, whose registry holds the connections of the
    successful calls in order.  If every call fails, the caller gets an
    empty pool and no error. *)
Theorem New_returns_pool_whatever_factory o w f :
  validate o = None ->
  PoolOptions.Connect o = Some f ->
  let n := Z.to_nat (PoolOptions.Connections o) in
  exists p' w',
    New o w = inr (Returned tt (p', w'))
    /\ opts p' = o
    /\ pool p' = connect_results f (connect_calls w) n
    /\ connect_calls w' = (connect_calls w + n)%nat
    /\ (length (pool p') + connect_failures f (connect_calls w) n)%nat = n
    /\ next p' = 0 /\ closer p' = false /\ closed p' = false
    /\ ((forall k, exists e, f k = inr e) -> pool p' = []).
Proof.
  intros Hv Hf n.
  destruct (validate_ok_inv _ Hv) as (_ & Hn & _).
  unfold New. rewrite Hv, connect_run.
  rewrite (probe_slow f); cbn [new_pool opts pool closed length]; auto;
    [| lia].
  do 2 eexists. split; [reflexivity |].
  cbn [opts pool set_pool connect_calls next closer closed emits].
  rewrite survivors_nil. unfold replenish_count. cbn [length app].
  replace (Z.to_nat (PoolOptions.Connections o - Z.of_nat 0)) with n
    by (subst n; lia).
  repeat split.
  - apply connect_results_failures.
  - intros Hfail. clear -Hfail.
    generalize (connect_calls w). induction n as [| n IH]; intros k;
      [reflexivity |].
    cbn. destruct (Hfail k) as [e ->]. apply IH.
Qed.

(** ** What reaches [log.Printf] *)

Lemma Printf_formats_app (a b : list (Event T)) :
  Printf_formats (a ++ b) = Printf_formats a ++ Printf_formats b.
Proof. apply flat_map_app. Qed.

Lemma Printf_formats_cons (e : Event T) (l : list (Event T)) :
  Printf_formats (e :: l) = Printf_formats [e] ++ Printf_formats l.
Proof. apply (Printf_formats_app [e] l). Qed.

Lemma Printf_formats_errors_metric o : Printf_formats (errors_metric o) = [].
Proof.
  unfold errors_metric.
  destruct (PoolOptions.Metrics o) as [m|];
    [destruct (PoolMetrics.ConnectionErrors m) |]; reflexivity.
Qed.

Lemma Printf_formats_gauge_metric o z :
  Printf_formats (gauge_metric o z) = [].
Proof.
  unfold gauge_metric.
  destruct (PoolOptions.Metrics o) as [m|];
    [destruct (PoolMetrics.Connections m) |]; reflexivity.
Qed.

Lemma Printf_formats_retrieval_metric o :
  Printf_formats (retrieval_metric o) = [].
Proof.
  unfold retrieval_metric.
  destruct (PoolOptions.Metrics o) as [m|];
    [destruct (PoolMetrics.Retrievals m) |]; reflexivity.
Qed.

Lemma Printf_formats_drain_null l :
  Printf_formats (flat_map (close_events nullLogger) l) = [].
Proof.
  induction l as [| c l IH]; [reflexivity |].
  cbn [flat_map]. rewrite Printf_formats_app, IH, app_nil_r.
  unfold close_events. now destruct (conn_Close c).
Qed.

Lemma Printf_formats_evictions_null o l :
  Printf_formats (flat_map (evict_events nullLogger o) l) = [].
Proof.
  induction l as [| c l IH]; [reflexivity |].
  cbn [flat_map]. unfold evict_events at 1, close_events.
  rewrite !Printf_formats_app, IH, Printf_formats_errors_metric.
  now destruct (conn_Close c).
Qed.

Lemma Printf_formats_connect_events_null o f k n :
  Printf_formats (connect_events nullLogger o f k n) = [].
Proof.
  revert k. induction n as [| n IH]; intros k; [reflexivity |].
  cbn [connect_events]. rewrite Printf_formats_app, IH, app_nil_r.
  destruct (f k); [reflexivity |]. cbn. apply Printf_formats_errors_metric.
Qed.

Lemma Printf_formats_pass_events_null o f l k :
  Printf_formats (pass_events nullLogger o f l k) = [].
Proof.
  unfold pass_events.
  now rewrite !Printf_formats_app, Printf_formats_gauge_metric,
    Printf_formats_evictions_null, Printf_formats_connect_events_null.
Qed.

(** X12.  A pool that logs to [NullLogger] hands nothing to [log.Printf]:
    whatever a reconciliation pass, [Close], [Next], [ExNext] or [Return]
    does on it (evictions, failed closes and failed connects included), the
    printed output stays as it was. *)
Theorem NullLogger_prints_nothing p w :
  log p = nullLogger ->
  validate (opts p) = None ->
  (forall s', probe (p, w) = Returned tt s' ->
              Printf_formats (trace (snd s')) = Printf_formats (trace w))
  /\ (forall s', Close (p, w) = Returned tt s' ->
                 Printf_formats (trace (snd s')) = Printf_formats (trace w))
  /\ (forall r s', Next empty (p, w) = Returned r s' ->
                   Printf_formats (trace (snd s')) = Printf_formats (trace w))
  /\ (forall r s', ExNext empty (p, w) = Returned r s' ->
                   Printf_formats (trace (snd s')) = Printf_formats (trace w))
  /\ (forall c s', Return c (p, w) = Returned tt s' ->
                   Printf_formats (trace (snd s')) = Printf_formats (trace w)).
Proof.
  intros Hlog Hv.
  destruct (validate_ok_inv _ Hv) as ((f & Hf) & _ & _).
  split; [| split; [| split; [| split]]].
  - intros s' Hrun.
    destruct (closed p) eqn:Hc.
    + rewrite probe_closed in Hrun by exact Hc.
      inversion Hrun; subst. cbn [snd emits trace].
      rewrite Printf_formats_app, Hlog. cbn. apply app_nil_r.
    + destruct (Z.eq_dec (Z.of_nat (length (pool p)))
                         (PoolOptions.Connections (opts p))) as [E | NE].
      * rewrite probe_fast in Hrun by assumption.
        inversion Hrun; subst. unfold emits. cbn [snd trace].
        rewrite Printf_formats_app, Printf_formats_cons,
          Printf_formats_gauge_metric, Hlog.
        cbn. apply app_nil_r.
      * rewrite (probe_slow f) in Hrun by assumption.
        inversion Hrun; subst. cbn [snd trace].
        rewrite Printf_formats_app, Hlog, Printf_formats_pass_events_null.
        apply app_nil_r.
  - intros s' Hrun.
    destruct (closer p) eqn:Hcl.
    + rewrite Close_done in Hrun by exact Hcl. now inversion Hrun; subst.
    + destruct (closed p) eqn:Hs.
      * destruct (Close_blocked p w Hcl Hs) as [s1 Hb]. congruence.
      * rewrite Close_first in Hrun by assumption.
        inversion Hrun; subst. cbn [snd emits trace].
        change (EvDebugf (log p) "closing connection pool" :: ?x)
          with ([EvDebugf (T := T) (log p) "closing connection pool"] ++ x).
        rewrite !Printf_formats_app, Hlog, Printf_formats_drain_null.
        cbn. apply app_nil_r.
  - intros [c b] s' Hrun.
    apply Next_inv in Hrun as [(_ & _ & _ & ->) | (_ & _ & _ & ->)];
      [reflexivity |].
    cbn [snd emits trace].
    rewrite Printf_formats_app, Printf_formats_retrieval_metric.
    apply app_nil_r.
  - intros [c b] s' Hrun.
    apply ExNext_inv in Hrun
      as [(_ & _ & _ & ->) | (_ & l1 & l2 & _ & _ & ->)];
      [reflexivity |].
    cbn [snd emits trace].
    rewrite Printf_formats_app, Printf_formats_retrieval_metric.
    apply app_nil_r.
  - intros c s' Hrun. rewrite Return_run in Hrun. now inversion Hrun; subst.
Qed.

(** X13.  The logger of a new pool is the configured one, or the standard
    output logger when none is configured.  With [NullLogger], construction
    prints nothing, even when connects fail; with no logger configured, it
    prints the two debug lines of [connect] and of the first pass, each
    with its severity in front, before anything else. *)
Theorem New_logger_default o w s :
  New o w = inr (Returned tt s) ->
  (forall lg, PoolOptions.Logger o = Some lg -> log (fst s) = lg)
  /\ (PoolOptions.Logger o = None -> log (fst s) = stdOutLogger)
  /\ (PoolOptions.Logger o = Some NullLogger ->
      Printf_formats (trace (snd s)) = Printf_formats (trace w))
  /\ (PoolOptions.Logger o = None ->
      exists lines : list string,
        Printf_formats (trace (snd s))
        = Printf_formats (trace w)
            ++ ("[DEBUG] - creating connection pool with %d connections"%string
                  :: "[DEBUG] - probing connection pool"%string
                  :: lines)).
Proof.
  intros Hnew.
  pose proof (New_size _ _ _ Hnew) as (Hv & _ & _).
  destruct (validate_ok_inv _ Hv) as ((f & Hf) & Hn & _).
  unfold New in Hnew. rewrite Hv, connect_run in Hnew.
  rewrite (probe_slow f) in Hnew;
    cbn [new_pool opts pool closed length]; auto; [| lia].
  inversion Hnew; subst s; clear Hnew.
  cbn [fst snd log set_pool new_pool trace emits].
  split; [now intros lg -> |]. split; [now intros -> |].
  split.
  - intros ->. cbn [NullLogger].
    rewrite !Printf_formats_app, Printf_formats_pass_events_null.
    cbn. now rewrite !app_nil_r.
  - intros ->. unfold pass_events.
    rewrite !Printf_formats_app. cbn [DefaultLogger].
    eexists. rewrite <- app_assoc. f_equal.
    cbn [Printf_formats flat_map Logger_Debugf stdOutLogger_Debugf app].
    cbn [String.append]. reflexivity.
Qed.

End MoreFacts.

(** * The further properties on concrete pools *)

Lemma probe_always_returns_witness :
  exists p' w' evs,
    probe (pool_short, world0) = Returned tt (p', w')
    /\ opts p' = opts pool_short
    /\ log p' = log pool_short
    /\ next p' = next pool_short
    /\ closer p' = closer pool_short
    /\ closed p' = false
    /\ trace w' = trace world0 ++ evs
    /\ (connect_calls world0 <= connect_calls w')%nat.
Proof. apply (probe_always_returns pool_short world0). reflexivity. Defined.

Lemma probe_accounting_witness :
  exists p' w' evs,
    probe (pool_short, world0) = Returned tt (p', w')
    /\ trace w' = trace world0 ++ evs
    /\ connect_calls w' = 1%nat
    /\ count is_connect evs = 1%nat
    /\ count is_connect_failure evs = 0%nat
    /\ pool p' = [newDummy 1 false; newDummy 0 true]
    /\ count is_error_inc evs = 1%nat.
Proof.
  destruct (probe_accounting pool_short world0 third_call_fails
              eq_refl eq_refl)
    as (p' & w' & evs & Hrun & Htr & Hcalls & Hconn & Hfail & Hpool & _ & Herr).
  - cbn. lia.
  - exists p', w', evs.
    split; [exact Hrun |]. split; [exact Htr |].
    split; [exact Hcalls |]. split; [exact Hconn |].
    split; [exact Hfail |]. split; [exact Hpool |].
    exact (Herr all_metrics eq_refl eq_refl).
Defined.

Lemma probe_without_health_predicate_witness :
  exists p' w' evs added,
    probe (pool_silent, world0) = Returned tt (p', w')
    /\ trace w' = trace world0 ++ evs
    /\ closes_of evs = []
    /\ pool p' = pool pool_silent ++ added.
Proof.
  apply (probe_without_health_predicate pool_silent world0); reflexivity.
Defined.

Lemma probe_over_full_witness :
  exists p' w',
    probe (pool_over_full, world0) = Returned tt (p', w')
    /\ connect_calls w' = connect_calls world0
    /\ pool p' = survivors (opts pool_over_full) (pool pool_over_full)
    /\ ((forall c, In c (pool pool_over_full) ->
                   passes_health (opts pool_over_full) c = true) ->
        pool p' = pool pool_over_full
        /\ PoolOptions.Connections (opts pool_over_full)
           < Z.of_nat (length (pool p'))).
Proof.
  apply (probe_over_full pool_over_full world0);
    [reflexivity | reflexivity | cbn; lia].
Defined.

Lemma probe_twice_converges_witness :
  exists s1 s2,
    probe (pool_one_of_three, world0) = Returned tt s1
    /\ probe s1 = Returned tt s2
    /\ Size s2
       = Returned (PoolOptions.Connections (opts pool_one_of_three)) s2
    /\ (Z.of_nat (length (pool pool_one_of_three))
        <> PoolOptions.Connections (opts pool_one_of_three) ->
        forall c, In c (pool (fst s2)) ->
                  passes_health (opts pool_one_of_three) c = true).
Proof.
  apply (probe_twice_converges pool_one_of_three world0 always_healthy).
  - reflexivity.
  - reflexivity.
  - reflexivity.
  - intros k. eexists. split; reflexivity.
  - cbn. lia.
Defined.


Lemma Close_skips_checked_out_witness :
  exists s1,
    ExNext nil_conn (pool_fresh3, world0)
    = Returned (newDummy 1 false, true) s1
    /\ exists l1 l2 s2 s3,
        pool pool_fresh3 = l1 ++ newDummy 1 false :: l2
        /\ Close s1 = Returned tt s2
        /\ closes_of (trace (snd s2)) = closes_of (trace world0) ++ l1 ++ l2
        /\ Return (newDummy 1 false) s2 = Returned tt s3
        /\ pool (fst s3) = [newDummy 1 false]
        /\ forall n, Close_many n s3 = Returned tt s3.
Proof.
  eexists. split; [vm_compute; reflexivity |].
  apply (Close_skips_checked_out nil_conn pool_fresh3 world0);
    [reflexivity | reflexivity | vm_compute; reflexivity].
Defined.

Lemma probe_gauge_is_size_at_start_witness :
  exists p' w' evs,
    probe (pool_short, world0) = Returned tt (p', w')
    /\ trace w' = trace world0 ++ evs
    /\ gauge_sets evs = [Z.of_nat (length (pool pool_short))].
Proof.
  apply (probe_gauge_is_size_at_start pool_short world0 all_metrics);
    reflexivity.
Defined.

Lemma retrieval_panics_iff_index_negative_witness :
  next_index pool_single_late < Z.of_nat (length (pool pool_single_late))
  /\ (0 <= next_index pool_single_late ->
      (exists c s',
          Next nil_conn (pool_single_late, world0) = Returned (c, true) s')
      /\ (exists c s',
             ExNext nil_conn (pool_single_late, world0)
             = Returned (c, true) s'))
  /\ (next_index pool_single_late < 0 ->
      (exists s', Next nil_conn (pool_single_late, world0) = Panicked s')
      /\ (exists s', ExNext nil_conn (pool_single_late, world0) = Panicked s'))
  /\ (0 <= next pool_single_late < int_max -> 0 <= next_index pool_single_late)
  /\ (length (pool pool_single_late) = 1%nat ->
      next_index pool_single_late = 0)
  /\ (next pool_single_late = uint64_mod - 1 ->
      next_index pool_single_late = 0).
Proof.
  apply (retrieval_panics_iff_index_negative nil_conn pool_single_late world0).
  discriminate.
Defined.

Lemma ExNext_takes_what_Next_returns_witness :
  (exists s',
      Next nil_conn (pool_fresh3, world0)
      = Returned (newDummy 1 false, true) s')
  <-> (exists s',
          ExNext nil_conn (pool_fresh3, world0)
          = Returned (newDummy 1 false, true) s').
Proof.
  exact (ExNext_takes_what_Next_returns nil_conn pool_fresh3 world0
           (newDummy 1 false)).
Defined.

Lemma New_returns_pool_whatever_factory_witness :
  exists p' w',
    New (opts_of always_fails 2) world0 = inr (Returned tt (p', w'))
    /\ opts p' = opts_of always_fails 2
    /\ pool p' = connect_results always_fails (connect_calls world0) 2
    /\ connect_calls w' = (connect_calls world0 + 2)%nat
    /\ (length (pool p')
        + connect_failures always_fails (connect_calls world0) 2)%nat
       = 2%nat
    /\ next p' = 0 /\ closer p' = false /\ closed p' = false
    /\ ((forall k, exists e, always_fails k = inr e) -> pool p' = []).
Proof.
  apply (New_returns_pool_whatever_factory (opts_of always_fails 2) world0
           always_fails); reflexivity.
Defined.

Lemma NullLogger_prints_nothing_witness :
  (forall s', probe (pool_silent, world0) = Returned tt s' ->
              Printf_formats (trace (snd s')) = Printf_formats (trace world0))
  /\ (forall s', Close (pool_silent, world0) = Returned tt s' ->
                 Printf_formats (trace (snd s'))
                 = Printf_formats (trace world0))
  /\ (forall r s', Next nil_conn (pool_silent, world0) = Returned r s' ->
                   Printf_formats (trace (snd s'))
                   = Printf_formats (trace world0))
  /\ (forall r s', ExNext nil_conn (pool_silent, world0) = Returned r s' ->
                   Printf_formats (trace (snd s'))
                   = Printf_formats (trace world0))
  /\ (forall c s', Return c (pool_silent, world0) = Returned tt s' ->
                   Printf_formats (trace (snd s'))
                   = Printf_formats (trace world0)).
Proof.
  apply (NullLogger_prints_nothing nil_conn pool_silent world0); reflexivity.
Defined.

Lemma New_logger_default_witness :
  exists s,
    New (opts_of first_failing 3) world0 = inr (Returned tt s)
    /\ (forall lg,
           PoolOptions.Logger (opts_of first_failing 3) = Some lg ->
           log (fst s) = lg)
    /\ (PoolOptions.Logger (opts_of first_failing 3) = None ->
        log (fst s) = stdOutLogger)
    /\ (PoolOptions.Logger (opts_of first_failing 3) = Some NullLogger ->
        Printf_formats (trace (snd s)) = Printf_formats (trace world0))
    /\ (PoolOptions.Logger (opts_of first_failing 3) = None ->
        exists lines : list string,
          Printf_formats (trace (snd s))
          = Printf_formats (trace world0)
              ++ ("[DEBUG] - creating connection pool with %d connections"%string
                    :: "[DEBUG] - probing connection pool"%string
                    :: lines)).
Proof.
  eexists. split; [vm_compute; reflexivity |].
  apply (New_logger_default (opts_of first_failing 3) world0).
  vm_compute. reflexivity.
Defined.
